(** * Huffman compression (FileCompression.py, MixAndEntropy.py)

    A shallow embedding of the Huffman engine shared by the two scripts:
    the [Node] class, the [HuffmanTree] class ([build_tree],
    [generate_codes], [encode]), [to_binary_string], [decode_huffman] and
    the two drivers [compress_file] / [decompress_file], followed by the
    properties of the specification that concern them.

    Conventions.
    - Symbols: the characters of a [str] (FileCompression.py) or the
      integers of a [bytes] object (MixAndEntropy.py).  The engine never
      inspects them, it only uses them as dictionary keys, so they are an
      arbitrary type [A] with decidable equality.
    - Bit strings: Python [str] over the two characters '0' and '1' are
      lists of booleans, [false] for '0' and [true] for '1'.
    - Python exceptions are values of [exn]; a computation that may raise
      has type [result X].  Loops that are [while] loops in the source run
      on fuel and report [OutOfFuel] when it is exhausted; every theorem
      below that speaks about a result shows that the computation really
      returns ([inr]), so the fuel handed out by the model was enough. *)

From stdpp Require Import base numbers option list gmap.

Set Default Proof Using "Type*".

(** ** Exceptions and the error monad *)

Inductive exn : Set :=
  | IndexError      (* list index out of range, pop from empty list *)
  | KeyError        (* missing dictionary key *)
  | AttributeError  (* attribute access on None *)
  | ValueError      (* int() of a bad literal, byte out of range(256) *)
  | StructError     (* struct.pack / struct.unpack *)
  | OutOfFuel.      (* model only: a while loop outlived its fuel *)

Definition result (X : Type) : Type := (exn + X)%type.

#[global] Instance result_ret : MRet result := λ X x, inr x.
#[global] Instance result_bind : MBind result :=
  λ X Y f m, match m with inl e => inl e | inr x => f x end.

Definition raise {X} (e : exn) : result X := inl e.

(** [l[i]] and [l[i] = x] on a Python list, for a non-negative index. *)
Definition getitem {X} (l : list X) (i : nat) : result X :=
  match l !! i with
  | Some x => mret x
  | None => raise IndexError
  end.

Definition setitem {X} (l : list X) (i : nat) (x : X) : result (list X) :=
  if decide (i < length l) then mret (<[i:=x]> l) else raise IndexError.

(** [l.pop()]: the last element and the shortened list. *)
Definition list_pop {X} (l : list X) : result (X * list X) :=
  match last l with
  | Some x => mret (x, take (length l - 1) l)
  | None => raise IndexError
  end.

(** [s[:-n]] for a non-negative [n]: note that [s[:-0]] is [s[:0]]. *)
Definition slice_to_neg {X} (s : list X) (n : nat) : list X :=
  if decide (n = 0) then [] else take (length s - n) s.

(** [range(0, stop, step)] for a positive step. *)
Definition range0 (stop step : nat) : list nat :=
  (λ k, k * step) <$> seq 0 ((stop + step - 1) `div` step).

(** [int(byte, 2)] on a string of binary digits. *)
Definition int2 (digits : list bool) : result N :=
  match digits with
  | [] => raise ValueError
  | _ => mret (foldl (λ acc (d : bool), 2 * acc + (if d then 1 else 0))%N 0%N digits)
  end.

(** [bytearray.append]: the value must be in [range(256)]. *)
Definition bytearray_append (data : list N) (v : N) : result (list N) :=
  if decide (v < 256)%N then mret (data ++ [v]) else raise ValueError.

(** [f"{byte:08b}"]: binary digits, most significant first, left-padded
    with zeros to a width of at least eight. *)
Fixpoint bin_pos (p : positive) : list bool :=
  match p with
  | xH => [true]
  | xO q => bin_pos q ++ [false]
  | xI q => bin_pos q ++ [true]
  end.

Definition bin (n : N) : list bool :=
  match n with
  | N0 => [false]
  | Npos p => bin_pos p
  end.

Definition format_08b (n : N) : list bool :=
  replicate (8 - length (bin n)) false ++ bin n.

(** [for x in xs: body], the loop state threaded through; an exception
    raised by the body leaves the loop. *)
Fixpoint for_in {S X} (xs : list X) (body : S → X → result S) (s : S) : result S :=
  match xs with
  | [] => mret s
  | x :: xs => s ← body s x; for_in xs body s
  end.

(** [struct.pack("B", v)] and [struct.unpack("B", buf)[0]]. *)
Definition struct_pack_B (v : nat) : result (list N) :=
  if decide (v < 256) then mret [N.of_nat v] else raise StructError.

Definition struct_unpack_B (buf : list N) : result nat :=
  match buf with
  | [b] => mret (N.to_nat b)
  | _ => raise StructError
  end.

(** ** The engine, generic in the symbol type *)

Section Engine.
Context {A : Type} `{Countable A}.

(** *** class Node *)

#[local] Set Warnings "-register-all".
Inductive Node : Type :=
  mkNode { character : option A;
           frequency : nat;
           left : option Node;
           right : option Node }.

(** [Node()] with all its defaults. *)
Definition Node_default : Node := mkNode None 0 None None.

(** [Node.__lt__] *)
Definition Node_lt (self other : Node) : bool :=
  bool_decide (frequency self < frequency other).

(** *** heapq (CPython's Lib/heapq.py, which the scripts import)

    The functions are transcribed from the reference implementation of
    the standard library; the only comparison they perform on the items
    is [<], which for [Node] is [Node_lt]. *)

(** The loop of [_siftdown]: follow the path to the root, moving parents
    down until [newitem] fits.  Returns the heap and the final [pos]. *)
Fixpoint siftdown_loop (fuel : nat) (newitem : Node) (startpos : nat)
    (heap : list Node) (pos : nat) : result (list Node * nat) :=
  if decide (startpos < pos) then
    match fuel with
    | 0 => raise OutOfFuel
    | S fuel' =>
      let parentpos := Nat.shiftr (pos - 1) 1 in
      parent ← getitem heap parentpos;
      if Node_lt newitem parent then
        heap ← setitem heap pos parent;
        siftdown_loop fuel' newitem startpos heap parentpos
      else mret (heap, pos)
    end
  else mret (heap, pos).

Definition _siftdown (heap : list Node) (startpos pos : nat) : result (list Node) :=
  newitem ← getitem heap pos;
  '(heap, pos) ← siftdown_loop pos newitem startpos heap pos;
  setitem heap pos newitem.

(** The loop of [_siftup]: bubble the smaller child up until a leaf. *)
Fixpoint siftup_loop (fuel : nat) (endpos : nat)
    (heap : list Node) (pos : nat) : result (list Node * nat) :=
  let childpos := 2 * pos + 1 in
  if decide (childpos < endpos) then
    match fuel with
    | 0 => raise OutOfFuel
    | S fuel' =>
      let rightpos := childpos + 1 in
      childpos ←
        (if decide (rightpos < endpos) then
           c ← getitem heap childpos;
           r ← getitem heap rightpos;
           mret (if negb (Node_lt c r) then rightpos else childpos)
         else mret childpos);
      child ← getitem heap childpos;
      heap ← setitem heap pos child;
      siftup_loop fuel' endpos heap childpos
    end
  else mret (heap, pos).

Definition _siftup (heap : list Node) (pos : nat) : result (list Node) :=
  let endpos := length heap in
  let startpos := pos in
  newitem ← getitem heap pos;
  '(heap, pos) ← siftup_loop endpos endpos heap pos;
  heap ← setitem heap pos newitem;
  _siftdown heap startpos pos.

Definition heappush (heap : list Node) (item : Node) : result (list Node) :=
  let heap := heap ++ [item] in
  _siftdown heap 0 (length heap - 1).

(** Returns the popped item and the heap that is left. *)
Definition heappop (heap : list Node) : result (Node * list Node) :=
  '(lastelt, heap) ← list_pop heap;
  match heap with
  | [] => mret (lastelt, heap)
  | _ =>
    returnitem ← getitem heap 0;
    heap ← setitem heap 0 lastelt;
    heap ← _siftup heap 0;
    mret (returnitem, heap)
  end.

(** [for i in reversed(range(n//2)): _siftup(x, i)] *)
Definition heapify (x : list Node) : result (list Node) :=
  let n := length x in
  for_in (reverse (seq 0 (n `div` 2))) (λ x i, _siftup x i) x.

(** *** class HuffmanTree *)

(** [frequency_map[ch] += 1] on a [defaultdict(int)].  A Python dict
    iterates in insertion order, and the order of [items()] decides the
    initial layout of the heap, so the dict is an association list: an
    existing key is updated in place, a new key goes to the end. *)
Fixpoint freq_incr (frequency_map : list (A * nat)) (ch : A) : list (A * nat) :=
  match frequency_map with
  | [] => [(ch, 0 + 1)]
  | (k, v) :: rest =>
    if decide (k = ch) then (k, v + 1) :: rest
    else (k, v) :: freq_incr rest ch
  end.

Definition count_frequencies (text : list A) : list (A * nat) :=
  foldl freq_incr [] text.

(** The [while len(heap) > 1] loop of [build_tree]. *)
Fixpoint build_loop (fuel : nat) (heap : list Node) : result (list Node) :=
  if decide (1 < length heap) then
    match fuel with
    | 0 => raise OutOfFuel
    | S fuel' =>
      '(left, heap) ← heappop heap;
      '(right, heap) ← heappop heap;
      let merged := mkNode None (frequency left + frequency right)
                           (Some left) (Some right) in
      heap ← heappush heap merged;
      build_loop fuel' heap
    end
  else mret heap.

Definition build_tree (text : list A) : result (option Node) :=
  let frequency_map := count_frequencies text in
  let heap := (λ '(char, freq), mkNode (Some char) freq None None) <$> frequency_map in
  heap ← heapify heap;
  heap ← build_loop (length heap) heap;
  mret (head heap).

(** [generate_codes] updates [self.codes]; the dictionary is threaded
    through.  The recursion is on the node, [None] children return at
    once ([if not node: return]). *)
Fixpoint generate_codes_node (node : Node) (current_code : list bool)
    (codes : gmap A (list bool)) : gmap A (list bool) :=
  match node with
  | mkNode (Some ch) _ _ _ => <[ch := current_code]> codes
  | mkNode None _ l r =>
    let codes :=
      match l with
      | None => codes
      | Some l => generate_codes_node l (current_code ++ [false]) codes
      end in
    match r with
    | None => codes
    | Some r => generate_codes_node r (current_code ++ [true]) codes
    end
  end.

Definition generate_codes (node : option Node) (current_code : list bool)
    (codes : gmap A (list bool)) : gmap A (list bool) :=
  match node with
  | None => codes
  | Some node => generate_codes_node node current_code codes
  end.

Record HuffmanTree : Type :=
  mkHuffmanTree { codes : gmap A (list bool); root : option Node }.

(** [HuffmanTree(text)].  (FileCompression.py also accepts an initial
    [codes] dictionary, which no caller passes: [codes or {}] is [{}].) *)
Definition HuffmanTree_init (text : list A) : result HuffmanTree :=
  let codes : gmap A (list bool) := ∅ in
  root ← (match text with [] => mret None | _ => build_tree text end);
  let codes := match root with
               | Some _ => generate_codes root [] codes
               | None => codes
               end in
  mret (mkHuffmanTree codes root).

(** ["".join(self.codes[ch] for ch in text)] *)
Fixpoint encode (self : HuffmanTree) (text : list A) : result (list bool) :=
  match text with
  | [] => mret []
  | ch :: text =>
    match codes self !! ch with
    | None => raise KeyError
    | Some code => rest ← encode self text; mret (code ++ rest)
    end
  end.

(** *** decode_huffman

    [node] is a Python reference and may be [None]; reading an attribute
    of [None] raises [AttributeError].  [decoded] is the accumulator. *)
Fixpoint decode_loop (tree_root : option Node) (node : option Node)
    (decoded : list A) (binary_string : list bool) : result (list A) :=
  match binary_string with
  | [] => mret decoded
  | bit :: rest =>
    match node with
    | None => raise AttributeError
    | Some n =>
      let node := if bit then right n else left n in
      match node with
      | None => raise AttributeError
      | Some n' =>
        match character n' with
        | Some ch => decode_loop tree_root tree_root (decoded ++ [ch]) rest
        | None => decode_loop tree_root node decoded rest
        end
      end
    end
  end.

Definition decode_huffman (binary_string : list bool)
    (huffman_tree : HuffmanTree) : result (list A) :=
  decode_loop (root huffman_tree) (root huffman_tree) [] binary_string.

(** *** Shapes of trees, used to state the properties *)

(** A tree as the specification describes it: a leaf carries a symbol
    and no children; an internal node carries no symbol, two children and
    the sum of their frequencies. *)
Inductive wf_node : Node → Prop :=
  | wf_leaf ch f :
      wf_node (mkNode (Some ch) f None None)
  | wf_internal l r :
      wf_node l → wf_node r →
      wf_node (mkNode None (frequency l + frequency r) (Some l) (Some r)).

(** All the nodes of a tree, the node itself first. *)
Fixpoint subnodes (n : Node) : list Node :=
  n :: match n with
       | mkNode _ _ l r =>
         (match l with Some l => subnodes l | None => [] end) ++
         (match r with Some r => subnodes r | None => [] end)
       end.

(** The symbols at the leaves with their frequencies, left to right. *)
Fixpoint leaves (n : Node) : list (A * nat) :=
  match n with
  | mkNode (Some ch) f _ _ => [(ch, f)]
  | mkNode None _ l r =>
    (match l with Some l => leaves l | None => [] end) ++
    (match r with Some r => leaves r | None => [] end)
  end.

(** The symbols at the leaves with the path that leads to each from the
    node: [false] for a step to the left, [true] for a step to the right. *)
Fixpoint paths (n : Node) : list (A * list bool) :=
  match n with
  | mkNode (Some ch) _ _ _ => [(ch, [])]
  | mkNode None _ l r =>
    (match l with Some l => prod_map id (cons false) <$> paths l | None => [] end) ++
    (match r with Some r => prod_map id (cons true) <$> paths r | None => [] end)
  end.

(** What the specification asks of an internal node. *)
Definition internal_node_ok (n : Node) : Prop :=
  character n = None →
  ∃ l r, left n = Some l ∧ right n = Some r ∧
         frequency n = frequency l + frequency r.

(** One assignment [codes[k] = v]. *)
Definition insert_pair (m : gmap A (list bool)) (kv : A * list bool)
    : gmap A (list bool) :=
  <[kv.1 := kv.2]> m.

(** The buffer holds at least two different symbols. *)
Definition two_distinct (text : list A) : Prop :=
  ∃ x y, x ∈ text ∧ y ∈ text ∧ x ≠ y.

(** The bits are the codes of [text], in order, followed by [part], a
    beginning of the code of some symbol that stops before its end. *)
Definition ends_mid_code (T : HuffmanTree) (text : list A)
    (bits part : list bool) : Prop :=
  ∃ whole x rest,
    encode T text = inr whole ∧ bits = whole ++ part ∧
    codes T !! x = Some (part ++ rest) ∧ part ≠ [] ∧ rest ≠ [].

(** The specification on a stream that stops inside a code: decoding
    raises. *)
Definition rejects_incomplete_stream (T : HuffmanTree) : Prop :=
  ∀ text bits part, ends_mid_code T text bits part →
    ∃ e, decode_huffman bits T = inl e.

(** The first node that [build_tree] takes out of its heap. *)
Definition first_extracted (text : list A) : result (option A) :=
  let frequency_map := count_frequencies text in
  let heap := (λ '(char, freq), mkNode (Some char) freq None None) <$> frequency_map in
  heap ← heapify heap;
  '(node, _) ← heappop heap;
  mret (character node).

(** The tie-break of the specification: the entry of least frequency,
    and among equal frequencies the one that was inserted first. *)
Fixpoint earliest_minimum (frequency_map : list (A * nat)) : option (A * nat) :=
  match frequency_map with
  | [] => None
  | (k, v) :: rest =>
    match earliest_minimum rest with
    | Some (k', v') => if decide (v' < v) then Some (k', v') else Some (k, v)
    | None => Some (k, v)
    end
  end.

Definition ties_by_insertion_order (text : list A) : Prop :=
  first_extracted text = inr (fst <$> earliest_minimum (count_frequencies text)).

(** *** The order heapq keeps in its array *)

(** Position [c] is a child of position [i]. *)
Definition is_child (i c : nat) : Prop := c = 2 * i + 1 ∨ c = 2 * i + 2.

(** The positions of the subtree under position [s]. *)
Inductive descends (s : nat) : nat → Prop :=
  | descends_here : descends s s
  | descends_child pos c : descends s pos → is_child pos c → descends s c.

(** From position [s] on, no parent has a larger frequency than one of
    its children; [heap_from 0] is the heap invariant of heapq. *)
Definition heap_from (s : nat) (heap : list Node) : Prop :=
  ∀ i c x y, s ≤ i → is_child i c →
    heap !! i = Some x → heap !! c = Some y → frequency x ≤ frequency y.

(** The state of the two sift loops while the item travels: the slot
    [pos] is free, it lies under [s], the order holds between the slots
    that are not [pos], and the parent of [pos] is at most the children
    of [pos]. *)
Definition sift_inv (s pos : nat) (heap : list Node) : Prop :=
  descends s pos ∧
  (∀ i c x y, s ≤ i → is_child i c → i ≠ pos → c ≠ pos →
     heap !! i = Some x → heap !! c = Some y → frequency x ≤ frequency y) ∧
  (∀ p c x y, s ≤ p → is_child p pos → is_child pos c →
     heap !! p = Some x → heap !! c = Some y → frequency x ≤ frequency y).

(** The left child of a node is not more frequent than the right one. *)
Definition ordered_children (n : Node) : Prop :=
  ∀ l r, left n = Some l → right n = Some r → frequency l ≤ frequency r.

(** *** The cost of a tree *)

(** The leaves of a tree with their frequency and their depth. *)
Fixpoint leaf_depths (n : Node) : list (nat * nat) :=
  match n with
  | mkNode (Some _) f _ _ => [(f, 0)]
  | mkNode None _ l r =>
    prod_map id S <$>
      ((match l with Some l => leaf_depths l | None => [] end) ++
       (match r with Some r => leaf_depths r | None => [] end))
  end.

(** The number of bits the tree spends on a text with these
    frequencies: each leaf counts its frequency times its depth. *)
Definition weighted_path_length (n : Node) : nat :=
  sum_list_with (λ wd, wd.1 * wd.2) (leaf_depths n).

(** The same number, counted where [build_tree] creates it: every
    internal node adds its frequency. *)
Fixpoint internal_cost (n : Node) : nat :=
  match n with
  | mkNode (Some _) _ _ _ => 0
  | mkNode None f l r =>
    f + (match l with Some l => internal_cost l | None => 0 end)
      + (match r with Some r => internal_cost r | None => 0 end)
  end.

(** The leaf nodes handed to [heapify] by [build_tree]. *)
Definition initial_heap (frequency_map : list (A * nat)) : list Node :=
  (λ '(char, freq), mkNode (Some char) freq None None) <$> frequency_map.

End Engine.

Arguments Node : clear implicits.
Arguments HuffmanTree A {_ _}.

(** ** FileCompression.py: the artifact is a binary file, one byte for
    the padding count followed by the packed bits.  Files are modelled by
    their contents; the [os.path.exists] guards and the printing belong
    to the I/O driver and are left out. *)

Module FileCompression.

Definition to_binary_string (encoded_text : list bool) : result (list N * nat) :=
  let padding := 8 - length encoded_text `mod` 8 in
  let padded_text := encoded_text ++ replicate padding false in
  binary_data ←
    for_in (range0 (length padded_text) 8)
      (λ binary_data i,
         let byte := take 8 (drop i padded_text) in
         v ← int2 byte;
         bytearray_append binary_data v)
      [];
  mret (binary_data, padding).

Section Driver.
Context {A : Type} `{Countable A}.

(** The value returned to the caller, and the bytes written to
    [compressed_file]. *)
Definition compress_file (text : list A)
    : result ((HuffmanTree A * nat * list bool) * list N) :=
  huffman_tree ← HuffmanTree_init text;
  encoded_text ← encode huffman_tree text;
  '(binary_data, padding) ← to_binary_string encoded_text;
  header ← struct_pack_B padding;
  mret ((huffman_tree, length text, encoded_text), header ++ binary_data).

(** The text written to [output_file]. *)
Definition decompress_file (compressed_file : list N)
    (huffman_tree : HuffmanTree A) : result (list A) :=
  padding ← struct_unpack_B (take 1 compressed_file);
  let binary_data := drop 1 compressed_file in
  let binary_string := foldl (λ s byte, s ++ format_08b byte) [] binary_data in
  let binary_string := slice_to_neg binary_string padding in
  decode_huffman binary_string huffman_tree.

(** The specification on empty input, read on this script: compression
    writes an artifact with no packed bytes after the count, and that
    artifact decompresses to the empty text. *)
Definition empty_artifact_claim : Prop :=
  ∃ ret file,
    compress_file [] = inr (ret, file) ∧ drop 1 file = [] ∧
    decompress_file file ret.1.1 = inr [].

End Driver.
End FileCompression.

(** ** MixAndEntropy.py: same engine (the node attribute is called
    [byte]); the artifact is a text file, the padding count on the first
    line and the padded bit string after it, modelled as a pair. *)

Module MixAndEntropy.

Definition to_binary_string (encoded_data : list bool) : list bool * nat :=
  let padding := 8 - length encoded_data `mod` 8 in
  let padded_data := encoded_data ++ replicate padding false in
  (padded_data, padding).

Section Driver.
Context {A : Type} `{Countable A}.

(** Returns [(huffman_tree, compressed_file, len(data))], the second
    component being what was written to the compressed file. *)
Definition compress_file (data : list A)
    : result (option (HuffmanTree A) * option (nat * list bool) * nat) :=
  match data with
  | [] => mret (None, None, 0)
  | _ =>
    huffman_tree ← HuffmanTree_init data;
    encoded_data ← encode huffman_tree data;
    let '(binary_data, padding) := to_binary_string encoded_data in
    mret (Some huffman_tree, Some (padding, binary_data), length data)
  end.

(** The bytes written to the decompressed file, [None] when the function
    returns early without writing one. *)
Definition decompress_file (compressed_file : nat * list bool)
    (huffman_tree : HuffmanTree A) : result (option (list A)) :=
  let '(padding, binary_data) := compressed_file in
  match binary_data with
  | [] => mret None
  | _ =>
    let binary_string := binary_data in
    let binary_string := slice_to_neg binary_string padding in
    decoded_data ← decode_huffman binary_string huffman_tree;
    mret (Some decoded_data)
  end.

(** The specification on empty input, read on this script: compression
    short-circuits to an artifact with an empty bit string, and that
    artifact decompresses to the empty buffer. *)
Definition empty_artifact_claim : Prop :=
  ∃ T file n,
    compress_file [] = inr (Some T, Some file, n) ∧ file.2 = [] ∧
    decompress_file file T = inr (Some []).

End Driver.
End MixAndEntropy.

(** ** Weights and depths, without the trees

    What [build_tree] does to the frequencies alone, and what any tree
    can offer for them. *)

(** Taking the two least weights [a <= b] out of [W], putting [a + b]
    back and paying [a + b], until one weight is left. *)
Inductive greedy : list nat → nat → Prop :=
  | greedy_one w : greedy [w] 0
  | greedy_step W a b W' c :
      W ≡ₚ a :: b :: W' →
      (∀ x, x ∈ b :: W' → a ≤ x) →
      (∀ x, x ∈ W' → b ≤ x) →
      greedy ((a + b) :: W') c →
      greedy W (a + b + c).

(** The depths of the leaves of a binary tree in which every internal
    node has two children: scaled by any bound [D] on the depths, the
    numbers [2 ^ (D - d)] add up to [2 ^ D]. *)
Definition kraft (ds : list nat) : Prop :=
  ∀ D, (∀ d, d ∈ ds → d ≤ D) → sum_list_with (λ d, 2 ^ (D - d)) ds = 2 ^ D.

(** The cost of giving depth [d] to weight [w], for each pair. *)
Definition wcost (L : list (nat * nat)) : nat :=
  sum_list_with (λ wd, wd.1 * wd.2) L.

(** * Properties *)

(** ** The error monad and the list primitives *)

Lemma bind_inr {X Y} (x : X) (f : X → result Y) : (inr x ≫= f) = f x.
Proof. reflexivity. Qed.

Lemma bind_inl {X Y} (e : exn) (f : X → result Y) : (inl e ≫= f) = inl e.
Proof. reflexivity. Qed.

Lemma getitem_Some {X} (l : list X) i x : l !! i = Some x → getitem l i = inr x.
Proof. unfold getitem. by intros ->. Qed.

Lemma getitem_lt {X} (l : list X) i :
  i < length l → ∃ x, l !! i = Some x ∧ getitem l i = inr x.
Proof.
  intros [x Hx]%lookup_lt_is_Some_2. exists x. split; [done|]. by apply getitem_Some.
Qed.

Lemma setitem_lt {X} (l : list X) i x :
  i < length l → setitem l i x = inr (<[i:=x]> l).
Proof. unfold setitem. intros Hi. by rewrite decide_True. Qed.

Lemma list_pop_snoc {X} (l : list X) x : list_pop (l ++ [x]) = inr (x, l).
Proof.
  unfold list_pop. rewrite last_snoc, length_app. simpl.
  replace (length l + 1 - 1) with (length l) by lia.
  by rewrite take_app_length.
Qed.

(** Moving the item at [j] into slot [i] and then filling [j] with [x]
    gives the same multiset as writing [x] into slot [i]. *)
Lemma insert_cons_Permutation {X} (l : list X) j x y :
  l !! j = Some y → y :: <[j:=x]> l ≡ₚ x :: l.
Proof.
  revert j. induction l as [|a l IH]; intros [|j] Hj; simplify_eq/=.
  - apply perm_swap.
  - rewrite (perm_swap a y), (IH _ Hj). apply perm_swap.
Qed.

Lemma insert_move_Permutation {X} (l : list X) i j x y :
  i < length l → l !! j = Some y →
  <[j:=x]> (<[i:=y]> l) ≡ₚ <[i:=x]> l.
Proof.
  intros Hi Hj. destruct (decide (i = j)) as [->|Hne].
  { by rewrite list_insert_insert_eq. }
  destruct (lookup_lt_is_Some_2 l i Hi) as [z Hz].
  apply (Permutation_cons_inv (a:=z)).
  rewrite (insert_cons_Permutation l i x z Hz).
  assert (<[i:=y]> l !! j = Some y) as Hj' by (by rewrite list_lookup_insert_ne).
  assert (y :: <[j:=x]> (<[i:=y]> l) ≡ₚ x :: <[i:=y]> l) as Hp
    by (by apply insert_cons_Permutation).
  apply (Permutation_cons_inv (a:=y)).
  rewrite (perm_swap z y), Hp.
  rewrite (perm_swap x z), (insert_cons_Permutation l i y z Hz).
  apply perm_swap.
Qed.

Lemma bytearray_append_lt (data : list N) (v : N) :
  (v < 256)%N → bytearray_append data v = inr (data ++ [v]).
Proof. intros Hv. unfold bytearray_append. by rewrite decide_True. Qed.

Lemma for_in_cons {S X} (x : X) (xs : list X) (body : S → X → result S) (s : S) :
  for_in (x :: xs) body s = (s ← body s x; for_in xs body s).
Proof. reflexivity. Qed.

Lemma for_in_invariant {S X} (P : S → Prop) (Q : X → Prop)
    (xs : list X) (body : S → X → result S) (s : S) :
  (∀ s x, P s → Q x → ∃ s', body s x = inr s' ∧ P s') →
  Forall Q xs → P s → ∃ s', for_in xs body s = inr s' ∧ P s'.
Proof.
  intros Hbody Hxs. revert s. induction Hxs as [|x xs Hx _ IH]; intros s Hs; simpl.
  - eauto.
  - destruct (Hbody s x Hs Hx) as (s' & -> & Hs'). rewrite bind_inr. by apply IH.
Qed.

(** ** heapq keeps the multiset of items and never raises in range *)

Section Heap.
Context {A : Type} `{Countable A}.
Implicit Types heap : list (Node A).

Lemma shiftr1_lt pos : 0 < pos → Nat.shiftr (pos - 1) 1 < pos.
Proof.
  intros Hpos. rewrite Nat.shiftr_div_pow2.
  change (2 ^ 1) with 2. apply Nat.Div0.div_lt_upper_bound. lia.
Qed.

Lemma siftdown_loop_S fuel newitem startpos heap pos :
  siftdown_loop (S fuel) newitem startpos heap pos =
  if decide (startpos < pos) then
    let parentpos := Nat.shiftr (pos - 1) 1 in
    parent ← getitem heap parentpos;
    if Node_lt newitem parent then
      heap ← setitem heap pos parent;
      siftdown_loop fuel newitem startpos heap parentpos
    else mret (heap, pos)
  else mret (heap, pos).
Proof. reflexivity. Qed.

Lemma siftup_loop_S fuel endpos heap pos :
  siftup_loop (S fuel) endpos heap pos =
  let childpos := 2 * pos + 1 in
  if decide (childpos < endpos) then
    let rightpos := childpos + 1 in
    childpos ←
      (if decide (rightpos < endpos) then
         c ← getitem heap childpos;
         r ← getitem heap rightpos;
         mret (if negb (Node_lt c r) then rightpos else childpos)
       else mret childpos);
    child ← getitem heap childpos;
    heap ← setitem heap pos child;
    siftup_loop fuel endpos heap childpos
  else mret (heap, pos).
Proof. reflexivity. Qed.

Lemma siftdown_loop_spec fuel newitem startpos heap pos :
  pos < length heap → pos ≤ fuel →
  ∃ heap' pos',
    siftdown_loop fuel newitem startpos heap pos = inr (heap', pos') ∧
    length heap' = length heap ∧ pos' < length heap ∧
    ∀ x, <[pos':=x]> heap' ≡ₚ <[pos:=x]> heap.
Proof.
  revert heap pos. induction fuel as [|fuel IH]; intros heap pos Hpos Hfuel.
  - assert (pos = 0) as -> by lia. simpl. exists heap, 0. eauto.
  - rewrite siftdown_loop_S. cbv zeta.
    destruct (decide (startpos < pos)) as [Hlt|_];
      [|exists heap, pos; by eauto].
    pose proof (shiftr1_lt pos ltac:(lia)) as Hparent.
    destruct (getitem_lt heap (Nat.shiftr (pos - 1) 1) ltac:(lia))
      as (parent & Hlook & ->).
    rewrite bind_inr. destruct (Node_lt newitem parent);
      [|exists heap, pos; by eauto].
    rewrite setitem_lt, bind_inr by done.
    destruct (IH (<[pos:=parent]> heap) (Nat.shiftr (pos - 1) 1))
      as (heap' & pos' & -> & Hlen & Hpos' & Hperm).
    { rewrite length_insert. lia. }
    { lia. }
    rewrite length_insert in Hlen, Hpos'.
    exists heap', pos'. repeat split; [done..|].
    intros x. rewrite Hperm. by apply insert_move_Permutation.
Qed.

Lemma _siftdown_spec heap startpos pos :
  pos < length heap →
  ∃ heap', _siftdown heap startpos pos = inr heap' ∧ heap' ≡ₚ heap.
Proof.
  intros Hpos. unfold _siftdown.
  destruct (getitem_lt heap pos Hpos) as (newitem & Hlook & ->).
  rewrite bind_inr.
  destruct (siftdown_loop_spec pos newitem startpos heap pos)
    as (heap' & pos' & -> & Hlen & Hpos' & Hperm); [done..|].
  rewrite bind_inr. simpl. rewrite setitem_lt by lia.
  eexists; split; [done|].
  by rewrite Hperm, list_insert_id.
Qed.

Lemma siftup_loop_spec fuel heap pos :
  pos < length heap → length heap - pos ≤ fuel →
  ∃ heap' pos',
    siftup_loop fuel (length heap) heap pos = inr (heap', pos') ∧
    length heap' = length heap ∧ pos' < length heap ∧
    ∀ x, <[pos':=x]> heap' ≡ₚ <[pos:=x]> heap.
Proof.
  revert heap pos. induction fuel as [|fuel IH]; intros heap pos Hpos Hfuel.
  - lia.
  - rewrite siftup_loop_S. cbv zeta.
    destruct (decide (2 * pos + 1 < length heap)) as [Hlt|_];
      [|exists heap, pos; by eauto].
    set (childpos := 2 * pos + 1) in *.
    assert (∃ c, (if decide (childpos + 1 < length heap)
                  then c0 ← getitem heap childpos;
                       r ← getitem heap (childpos + 1);
                       mret (if negb (Node_lt c0 r) then childpos + 1 else childpos)
                  else mret childpos) = inr c ∧ pos < c < length heap)
      as (c & -> & Hc).
    { destruct (decide (childpos + 1 < length heap)) as [Hr|_].
      - destruct (getitem_lt heap childpos Hlt) as (c0 & _ & ->).
        destruct (getitem_lt heap (childpos + 1) Hr) as (r & _ & ->).
        rewrite !bind_inr. eexists; split; [done|].
        destruct (negb _); unfold childpos; lia.
      - eexists; split; [done|]. unfold childpos; lia. }
    rewrite bind_inr.
    destruct (getitem_lt heap c ltac:(lia)) as (child & Hlook & ->).
    rewrite bind_inr, setitem_lt, bind_inr by done.
    destruct (IH (<[pos:=child]> heap) c)
      as (heap' & pos' & Hloop & Hlen & Hpos' & Hperm).
    { rewrite length_insert. lia. }
    { rewrite length_insert. lia. }
    rewrite length_insert in Hloop, Hlen, Hpos'.
    exists heap', pos'. repeat split; [done..|].
    intros x. rewrite Hperm. by apply insert_move_Permutation.
Qed.

Lemma _siftup_spec heap pos :
  pos < length heap →
  ∃ heap', _siftup heap pos = inr heap' ∧ heap' ≡ₚ heap.
Proof.
  intros Hpos. unfold _siftup.
  destruct (getitem_lt heap pos Hpos) as (newitem & Hlook & ->).
  rewrite bind_inr.
  destruct (siftup_loop_spec (length heap) heap pos)
    as (heap1 & pos1 & -> & Hlen & Hpos1 & Hperm); [done|lia|].
  rewrite bind_inr. simpl. rewrite setitem_lt, bind_inr by lia.
  destruct (_siftdown_spec (<[pos1:=newitem]> heap1) pos pos1)
    as (heap2 & -> & Hperm2).
  { rewrite length_insert. lia. }
  eexists; split; [done|].
  by rewrite Hperm2, Hperm, list_insert_id.
Qed.

Lemma heappush_spec heap item :
  ∃ heap', heappush heap item = inr heap' ∧ heap' ≡ₚ item :: heap.
Proof.
  unfold heappush.
  destruct (_siftdown_spec (heap ++ [item]) 0 (length (heap ++ [item]) - 1))
    as (heap' & -> & Hperm).
  { rewrite length_app. simpl. lia. }
  eexists; split; [done|]. by rewrite Hperm, <-Permutation_cons_append.
Qed.

Lemma heappop_spec heap :
  heap ≠ [] →
  ∃ item heap', heappop heap = inr (item, heap') ∧ heap ≡ₚ item :: heap'.
Proof.
  intros Hne. unfold heappop.
  destruct (proj2 (last_is_Some heap) Hne) as [lastelt Hlast].
  apply last_Some in Hlast as [init ->].
  rewrite list_pop_snoc, bind_inr. simpl.
  destruct init as [|returnitem rest].
  - by exists lastelt, [].
  - change (getitem (returnitem :: rest) 0) with (inr (B:=Node A) (A:=exn) returnitem).
    rewrite bind_inr.
    rewrite setitem_lt, bind_inr by (simpl; lia). simpl.
    destruct (_siftup_spec (lastelt :: rest) 0) as (heap' & -> & Hperm);
      [simpl; lia|].
    rewrite bind_inr. exists returnitem, heap'. split; [done|].
    rewrite Hperm. simpl. by rewrite <-Permutation_cons_append.
Qed.

Lemma heapify_spec heap :
  ∃ heap', heapify heap = inr heap' ∧ heap' ≡ₚ heap.
Proof.
  unfold heapify.
  apply (for_in_invariant (λ h, h ≡ₚ heap) (λ i, i < length heap)).
  - intros h i Hh Hi. destruct (_siftup_spec h i) as (h' & -> & Hperm).
    + by rewrite Hh.
    + exists h'. split; [done|]. by rewrite Hperm.
  - apply Forall_forall. intros i Hi%elem_of_reverse%elem_of_seq.
    assert (length heap `div` 2 ≤ length heap); [|lia].
    apply Nat.Div0.div_le_upper_bound. lia.
  - done.
Qed.

End Heap.

(** ** The frequency map *)

Section Frequencies.
Context {A : Type} `{Countable A}.
Implicit Types (m : list (A * nat)) (text : list A).

Lemma freq_incr_keys m ch :
  (freq_incr m ch).*1 = if decide (ch ∈ m.*1) then m.*1 else m.*1 ++ [ch].
Proof.
  induction m as [|[k v] m IH].
  - destruct (decide (ch ∈ ([] : list (A * nat)).*1)) as [Hin|_]; [|done].
    by apply elem_of_nil in Hin.
  - change ((freq_incr ((k, v) :: m) ch).*1) with
      ((if decide (k = ch) then (k, v + 1) :: m else (k, v) :: freq_incr m ch).*1).
    change (((k, v) :: m).*1) with (k :: m.*1).
    destruct (decide (k = ch)) as [->|Hne].
    + destruct (decide (ch ∈ ch :: m.*1)) as [_|Hnin]; [done|].
      destruct Hnin. apply list_elem_of_here.
    + change (((k, v) :: freq_incr m ch).*1) with (k :: (freq_incr m ch).*1).
      rewrite IH. destruct (decide (ch ∈ m.*1)) as [Hin|Hnin].
      * destruct (decide (ch ∈ k :: m.*1)) as [_|Hnin]; [done|].
        destruct Hnin. by apply list_elem_of_further.
      * destruct (decide (ch ∈ k :: m.*1)) as [[?|?]%elem_of_cons|_];
          [congruence|done|done].
Qed.

Lemma freq_incr_NoDup m ch : NoDup m.*1 → NoDup (freq_incr m ch).*1.
Proof.
  intros Hm. rewrite freq_incr_keys. case_decide; [done|].
  apply NoDup_app. split_and!; [done| |apply NoDup_singleton].
  intros x Hx ->%list_elem_of_singleton. done.
Qed.

Lemma freq_incr_elem_of m ch x :
  x ∈ (freq_incr m ch).*1 ↔ x ∈ m.*1 ∨ x = ch.
Proof.
  rewrite freq_incr_keys. case_decide.
  - split; [auto|]. by intros [?| ->].
  - by rewrite elem_of_app, list_elem_of_singleton.
Qed.

Lemma freq_incr_sum m ch :
  sum_list (freq_incr m ch).*2 = S (sum_list m.*2).
Proof.
  induction m as [|[k v] m IH]; [done|].
  change (freq_incr ((k, v) :: m) ch) with
    (if decide (k = ch) then (k, v + 1) :: m else (k, v) :: freq_incr m ch).
  case_decide; rewrite !fmap_cons; simpl; [lia|]. rewrite IH. lia.
Qed.

Lemma foldl_freq_incr_spec text m :
  NoDup m.*1 →
  NoDup (foldl freq_incr m text).*1 ∧
  (∀ x, x ∈ (foldl freq_incr m text).*1 ↔ x ∈ m.*1 ∨ x ∈ text) ∧
  sum_list (foldl freq_incr m text).*2 = sum_list m.*2 + length text.
Proof.
  revert m. induction text as [|ch text IH]; intros m Hm; simpl.
  - split_and!; [done| |lia]. intros x. rewrite elem_of_nil. tauto.
  - destruct (IH (freq_incr m ch)) as (Hnd & Hin & Hsum);
      [by apply freq_incr_NoDup|].
    split_and!; [done| |].
    + intros x. rewrite Hin, freq_incr_elem_of, elem_of_cons. tauto.
    + rewrite Hsum, freq_incr_sum. lia.
Qed.

Lemma count_frequencies_NoDup text : NoDup (count_frequencies text).*1.
Proof. apply foldl_freq_incr_spec. apply NoDup_nil_2. Qed.

Lemma count_frequencies_elem_of text x :
  x ∈ (count_frequencies text).*1 ↔ x ∈ text.
Proof.
  unfold count_frequencies.
  destruct (foldl_freq_incr_spec text []) as (_ & -> & _); [apply NoDup_nil_2|].
  simpl. rewrite elem_of_nil. tauto.
Qed.

Lemma count_frequencies_sum text :
  sum_list (count_frequencies text).*2 = length text.
Proof.
  unfold count_frequencies.
  by destruct (foldl_freq_incr_spec text []) as (_ & _ & ->); [apply NoDup_nil_2|].
Qed.

Lemma count_frequencies_nil text : count_frequencies text = [] ↔ text = [].
Proof.
  split; [|by intros ->].
  intros Hnil. destruct text as [|x text]; [done|].
  assert (x ∈ (count_frequencies (x :: text)).*1) as Hx
    by (apply count_frequencies_elem_of, list_elem_of_here).
  rewrite Hnil in Hx. by apply elem_of_nil in Hx.
Qed.

End Frequencies.

(** ** The tree built by [build_tree] *)

Section Trees.
Context {A : Type} `{Countable A}.
Implicit Types (n l r : Node A) (heap : list (Node A)).
Implicit Types (fm : list (A * nat)) (text : list A).

Lemma wf_node_frequency n : wf_node n → frequency n = sum_list (leaves n).*2.
Proof.
  induction 1 as [ch f|l r _ IHl _ IHr]; simpl.
  - lia.
  - rewrite fmap_app, sum_list_with_app. lia.
Qed.

Lemma wf_node_paths_keys n : wf_node n → (paths n).*1 = (leaves n).*1.
Proof.
  induction 1 as [ch f|l r _ IHl _ IHr]; simpl; [done|].
  rewrite !fmap_app, <-!list_fmap_compose, <-IHl, <-IHr.
  f_equal; apply list_fmap_ext; by intros ? [].
Qed.

Lemma wf_node_subnodes n : wf_node n → Forall wf_node (subnodes n).
Proof.
  induction 1 as [ch f|l r Hl IHl Hr IHr]; simpl.
  - repeat constructor.
  - constructor; [by constructor|]. by apply Forall_app.
Qed.

Lemma wf_node_internal_ok n : wf_node n → internal_node_ok n.
Proof. intros [ch f|l r _ _]; [done|]. intros _. by exists l, r. Qed.

Lemma wf_node_leaves_nonempty n : wf_node n → leaves n ≠ [].
Proof.
  induction 1 as [ch f|l r _ IHl _ IHr]; simpl; [done|].
  intros [? _]%app_eq_nil. done.
Qed.

Lemma initial_heap_wf fm : Forall wf_node (initial_heap fm).
Proof.
  unfold initial_heap. apply Forall_fmap, Forall_forall.
  intros [ch f] _. constructor.
Qed.

Lemma initial_heap_leaves fm : initial_heap fm ≫= leaves = fm.
Proof.
  induction fm as [|[ch f] fm IH]; [done|].
  unfold initial_heap in *. rewrite fmap_cons, bind_cons, IH. done.
Qed.

Lemma build_loop_spec fuel heap fm :
  Forall wf_node heap → heap ≫= leaves ≡ₚ fm →
  heap ≠ [] → length heap ≤ S fuel →
  ∃ r, build_loop fuel heap = inr [r] ∧ wf_node r ∧ leaves r ≡ₚ fm.
Proof.
  revert heap. induction fuel as [|fuel IH]; intros heap Hwf Hleaves Hne Hlen.
  - destruct heap as [|r [|??]]; [done| |simpl in Hlen; lia].
    exists r. apply Forall_inv in Hwf. simpl in Hleaves.
    rewrite app_nil_r in Hleaves. done.
  - simpl. destruct (decide (1 < length heap)) as [Hgt|Hle]; last first.
    { destruct heap as [|r [|??]]; [done| |simpl in Hle; lia].
      exists r. apply Forall_inv in Hwf. simpl in Hleaves.
      rewrite app_nil_r in Hleaves. done. }
    destruct (heappop_spec heap Hne) as (l & heap1 & -> & Hp1).
    rewrite bind_inr. simpl.
    assert (heap1 ≠ []) as Hne1.
    { intros ->. apply Permutation_length in Hp1. simpl in Hp1. lia. }
    destruct (heappop_spec heap1 Hne1) as (r & heap2 & -> & Hp2).
    rewrite bind_inr. simpl.
    destruct (heappush_spec heap2
      (mkNode None (frequency l + frequency r) (Some l) (Some r)))
      as (heap3 & -> & Hp3).
    rewrite bind_inr.
    rewrite Hp1, Hp2 in Hwf, Hleaves.
    apply Forall_cons in Hwf as [Hl [Hr Hwf2]%Forall_cons].
    apply IH.
    + rewrite Hp3. constructor; [by constructor|done].
    + rewrite Hp3, <-Hleaves. rewrite !bind_cons. simpl.
      by rewrite (assoc (++)).
    + intros ->. apply Permutation_length in Hp3. done.
    + apply Permutation_length in Hp1, Hp2, Hp3. simpl in *. lia.
Qed.

Lemma build_tree_spec text :
  text ≠ [] →
  ∃ r, build_tree text = inr (Some r) ∧ wf_node r ∧
       leaves r ≡ₚ count_frequencies text.
Proof.
  intros Hne. unfold build_tree.
  change (_ <$> count_frequencies text) with (initial_heap (count_frequencies text)).
  destruct (heapify_spec (initial_heap (count_frequencies text)))
    as (heap & -> & Hperm).
  rewrite bind_inr.
  destruct (build_loop_spec (length heap) heap (count_frequencies text))
    as (r & -> & Hwf & Hleaves).
  - rewrite Hperm. apply initial_heap_wf.
  - by rewrite Hperm, initial_heap_leaves.
  - intros ->. apply Permutation_nil_l in Hperm. symmetry in Hperm.
    apply fmap_nil_inv in Hperm.
    by apply (proj1 (count_frequencies_nil text)) in Hperm.
  - lia.
  - by exists r.
Qed.

End Trees.

(** ** The code table *)

Section Codes.
Context {A : Type} `{Countable A}.
Implicit Types (n l r : Node A) (text : list A).
Implicit Types (p c : list bool) (m : gmap A (list bool)).

Lemma generate_codes_node_paths n p m :
  wf_node n →
  generate_codes_node n p m =
  foldl insert_pair m (prod_map id (app p) <$> paths n).
Proof.
  intros Hwf. revert p m.
  induction Hwf as [ch f|l r _ IHl _ IHr]; intros p m; simpl.
  - by rewrite app_nil_r.
  - rewrite fmap_app, foldl_app, IHl, IHr, <-!list_fmap_compose.
    f_equal; [f_equal|]; apply list_fmap_ext; intros _ [x c] _; simpl;
      unfold prod_map; simpl; by rewrite <-(assoc (++)).
Qed.

Lemma foldl_insert_pair_list_to_map (kvs : list (A * list bool)) :
  NoDup kvs.*1 → foldl insert_pair ∅ kvs = list_to_map kvs.
Proof.
  induction kvs as [|[k v] kvs IH] using rev_ind; intros Hnd; [done|].
  rewrite fmap_app in Hnd. apply NoDup_app in Hnd as (Hnd & Hdisj & _).
  rewrite foldl_snoc, IH by done. unfold insert_pair. simpl.
  rewrite list_to_map_snoc; [done|].
  intros Hk. apply (Hdisj k Hk). simpl. apply list_elem_of_here.
Qed.

Lemma generate_codes_list_to_map r :
  wf_node r → NoDup (paths r).*1 →
  generate_codes (Some r) [] ∅ = list_to_map (paths r).
Proof.
  intros Hwf Hnd. simpl. rewrite generate_codes_node_paths by done.
  rewrite <-foldl_insert_pair_list_to_map by done. f_equal.
  rewrite <-(list_fmap_id (paths r)) at 2.
  apply list_fmap_ext. by intros _ [x c] _.
Qed.

(** No path to a leaf is the beginning of the path to another leaf. *)
Lemma paths_prefix_free n x c y d :
  wf_node n → NoDup (paths n).*1 →
  (x, c) ∈ paths n → (y, d) ∈ paths n → c `prefix_of` d → x = y.
Proof.
  intros Hwf. revert c d.
  induction Hwf as [ch f|l r _ IHl _ IHr]; intros c d Hnd Hx Hy Hpre; simpl in *.
  - apply list_elem_of_singleton in Hx, Hy. congruence.
  - rewrite fmap_app, <-!list_fmap_compose in Hnd.
    apply NoDup_app in Hnd as (Hndl & _ & Hndr).
    assert ((prod_map id (cons false) <$> paths l).*1 = (paths l).*1) as El.
    { rewrite <-list_fmap_compose. apply list_fmap_ext. by intros _ [] _. }
    assert ((prod_map id (cons true) <$> paths r).*1 = (paths r).*1) as Er.
    { rewrite <-list_fmap_compose. apply list_fmap_ext. by intros _ [] _. }
    rewrite list_fmap_compose, El in Hndl.
    rewrite list_fmap_compose, Er in Hndr.
    apply elem_of_app in Hx as [Hx|Hx], Hy as [Hy|Hy];
      apply list_elem_of_fmap in Hx as ([x' c'] & [= -> ->] & Hx);
      apply list_elem_of_fmap in Hy as ([y' d'] & [= -> ->] & Hy).
    + apply prefix_cons_inv_2 in Hpre. eauto.
    + by apply prefix_cons_inv_1 in Hpre.
    + by apply prefix_cons_inv_1 in Hpre.
    + apply prefix_cons_inv_2 in Hpre. eauto.
Qed.

(** What the constructor returns for a non-empty text. *)
Lemma HuffmanTree_init_spec text :
  text ≠ [] →
  ∃ r, HuffmanTree_init text = inr (mkHuffmanTree (list_to_map (paths r)) (Some r)) ∧
       wf_node r ∧ leaves r ≡ₚ count_frequencies text ∧ NoDup (paths r).*1.
Proof.
  intros Hne. destruct (build_tree_spec text Hne) as (r & Hbuild & Hwf & Hleaves).
  assert (NoDup (paths r).*1) as Hnd.
  { rewrite (wf_node_paths_keys r Hwf), Hleaves. apply count_frequencies_NoDup. }
  exists r. split_and!; [|done..].
  unfold HuffmanTree_init. destruct text as [|x text]; [done|].
  rewrite Hbuild, bind_inr. by rewrite generate_codes_list_to_map.
Qed.

Lemma paths_elem_of_text text r x :
  wf_node r → leaves r ≡ₚ count_frequencies text →
  x ∈ text ↔ ∃ c, (x, c) ∈ paths r.
Proof.
  intros Hwf Hleaves.
  rewrite <-count_frequencies_elem_of, <-Hleaves, <-(wf_node_paths_keys r Hwf).
  rewrite list_elem_of_fmap. split.
  - intros ([y c] & -> & Hin). by exists c.
  - intros [c Hin]. by exists (x, c).
Qed.

End Codes.

(** ** Walking the tree *)

Section Decoding.
Context {A : Type} `{Countable A}.
Implicit Types (n l r : Node A) (text acc : list A).
Implicit Types (c bits rest : list bool).

(** Reading a whole path from an internal node emits its symbol and
    goes back to the root. *)
Lemma decode_loop_path R c : ∀ n x acc rest,
  wf_node n → character n = None → (x, c) ∈ paths n →
  decode_loop R (Some n) acc (c ++ rest) = decode_loop R R (acc ++ [x]) rest.
Proof.
  induction c as [|b c IH]; intros n x acc rest Hwf Hint Hin.
  - destruct Hwf as [ch f|l r Hl Hr]; [done|]. simpl in Hin.
    apply elem_of_app in Hin as [Hin|Hin];
      by apply list_elem_of_fmap in Hin as ([??] & [=] & _).
  - destruct Hwf as [ch f|l r Hl Hr]; [done|]. simpl in Hin.
    apply elem_of_app in Hin as [Hin|Hin];
      apply list_elem_of_fmap in Hin as ([x' c'] & [= -> -> ->] & Hin); simpl.
    + destruct Hl as [ch f|ll lr Hll Hlr]; simpl in *.
      * by apply list_elem_of_singleton in Hin as [= -> ->].
      * apply IH; [by constructor|done..].
    + destruct Hr as [ch f|rl rr Hrl Hrr]; simpl in *.
      * by apply list_elem_of_singleton in Hin as [= -> ->].
      * apply IH; [by constructor|done..].
Qed.

(** Bits that stop in the middle of a path are read without a word. *)
Lemma decode_loop_partial R s : ∀ n x c acc,
  wf_node n → (x, s ++ c) ∈ paths n → c ≠ [] →
  decode_loop R (Some n) acc s = inr acc.
Proof.
  induction s as [|b s IH]; intros n x c acc Hwf Hin Hc; [done|].
  destruct Hwf as [ch f|l r Hl Hr]; simpl in Hin.
  { by apply list_elem_of_singleton in Hin as [= _ ?]. }
  apply elem_of_app in Hin as [Hin|Hin];
    apply list_elem_of_fmap in Hin as ([x' c'] & [= -> -> <-] & Hin); simpl.
  - destruct Hl as [ch f|ll lr Hll Hlr]; simpl in *.
    + apply list_elem_of_singleton in Hin as [= _ [_ ->]%app_eq_nil]. done.
    + eapply IH; [by constructor|done..].
  - destruct Hr as [ch f|rl rr Hrl Hrr]; simpl in *.
    + apply list_elem_of_singleton in Hin as [= _ [_ ->]%app_eq_nil]. done.
    + eapply IH; [by constructor|done..].
Qed.

(** From the root of a tree with at least one internal node the walk
    never meets a missing child, whatever the bits. *)
Lemma decode_loop_total R bits : ∀ n acc,
  wf_node R → character R = None →
  wf_node n → character n = None →
  ∃ out, decode_loop (Some R) (Some n) acc bits = inr out ∧
         length out ≤ length acc + length bits.
Proof.
  induction bits as [|b bits IH]; intros n acc HR HRint Hwf Hint.
  { exists acc. split; [done|]. simpl. lia. }
  destruct Hwf as [ch f|l r Hl Hr]; [done|].
  destruct b; simpl.
  - destruct Hr as [ch f|rl rr Hrl Hrr]; simpl.
    + destruct (IH R (acc ++ [ch])) as (out & -> & Hlen); [done..|].
      exists out. split; [done|]. rewrite length_app in Hlen. simpl in *. lia.
    + destruct (IH (mkNode None (frequency rl + frequency rr) (Some rl) (Some rr)) acc)
        as (out & -> & Hlen); [done|done|by constructor|done|].
      exists out. split; [done|]. lia.
  - destruct Hl as [ch f|ll lr Hll Hlr]; simpl.
    + destruct (IH R (acc ++ [ch])) as (out & -> & Hlen); [done..|].
      exists out. split; [done|]. rewrite length_app in Hlen. simpl in *. lia.
    + destruct (IH (mkNode None (frequency ll + frequency lr) (Some ll) (Some lr)) acc)
        as (out & -> & Hlen); [done|done|by constructor|done|].
      exists out. split; [done|]. lia.
Qed.

(** A root that is a leaf has no children: the first bit steps to [None]. *)
Lemma decode_loop_leaf_root ch f b bits acc :
  decode_loop (Some (mkNode (Some ch) f None None))
              (Some (mkNode (Some ch) f None None)) acc (b :: bits)
  = inl AttributeError.
Proof. by destruct b. Qed.

(** Encoding looks every symbol up; decoding the concatenated codes
    gives the symbols back. *)
Lemma encode_decode_loop r text :
  wf_node r → character r = None → NoDup (paths r).*1 →
  (∀ x, x ∈ text → ∃ c, (x, c) ∈ paths r) →
  ∃ bits, encode (mkHuffmanTree (list_to_map (paths r)) (Some r)) text = inr bits ∧
    ∀ acc rest, decode_loop (Some r) (Some r) acc (bits ++ rest)
                = decode_loop (Some r) (Some r) (acc ++ text) rest.
Proof.
  intros Hwf Hint Hnd. induction text as [|x text IH]; intros Hin.
  - exists []. split; [done|]. intros acc rest. by rewrite app_nil_r.
  - destruct (Hin x) as [c Hc]; [apply list_elem_of_here|].
    destruct IH as (bits & Henc & Hdec).
    { intros y Hy. apply Hin. by apply list_elem_of_further. }
    exists (c ++ bits). split.
    + simpl. rewrite (elem_of_list_to_map_1 _ _ _ Hnd Hc).
      by rewrite Henc, bind_inr.
    + intros acc rest. rewrite <-(assoc (++)).
      rewrite (decode_loop_path _ c r x) by done.
      rewrite Hdec. by rewrite <-(assoc (++)).
Qed.

End Decoding.

(** ** Packing bits into bytes *)

Section Packing.
Implicit Types (bits padded : list bool) (data bytes : list N).

Lemma int2_format_08b (bs : list bool) :
  length bs = 8 →
  ∃ v, int2 bs = inr v ∧ (v < 256)%N ∧ format_08b v = bs.
Proof.
  intros Hlen.
  do 9 (destruct bs as [|? bs]; try done).
  repeat match goal with b : bool |- _ => destruct b end;
    (eexists; split_and!; [reflexivity|reflexivity|reflexivity]).
Qed.

Lemma padding_spec (L : nat) :
  1 ≤ 8 - L `mod` 8 ≤ 8 ∧
  L + (8 - L `mod` 8) = (L `div` 8 + 1) * 8 ∧
  (L + (8 - L `mod` 8)) `mod` 8 = 0.
Proof.
  pose proof (Nat.mod_upper_bound L 8 ltac:(lia)) as Hlt.
  pose proof (Nat.div_mod_eq L 8) as Hdm.
  assert (L + (8 - L `mod` 8) = (L `div` 8 + 1) * 8) as Heq by lia.
  split_and!; [lia|lia|done|]. rewrite Heq. apply Nat.Div0.mod_mul.
Qed.

Lemma range0_multiple (k : nat) :
  range0 (k * 8) 8 = (λ j, j * 8) <$> seq 0 k.
Proof.
  unfold range0. do 2 f_equal.
  replace (k * 8 + 8 - 1) with (k * 8 + 7) by lia.
  rewrite Nat.div_add_l by lia. change (7 `div` 8) with 0. lia.
Qed.

Lemma pack_loop padded k : ∀ s data,
  (s + k) * 8 ≤ length padded →
  ∃ bytes,
    for_in ((λ j, j * 8) <$> seq s k)
      (λ binary_data i,
         v ← int2 (take 8 (drop i padded)); bytearray_append binary_data v)
      data = inr (data ++ bytes) ∧
    length bytes = k ∧
    Forall (λ v, (v < 256)%N) bytes ∧
    mjoin (format_08b <$> bytes) = take (k * 8) (drop (s * 8) padded).
Proof.
  induction k as [|k IH]; intros s data Hlen.
  - exists []. by rewrite app_nil_r.
  - destruct (int2_format_08b (take 8 (drop (s * 8) padded)))
      as (v & Hv & Hlt & Hfmt).
    { rewrite length_take, length_drop. lia. }
    destruct (IH (S s) (data ++ [v])) as (bytes & Hloop & Hk & Hall & Hjoin);
      [lia|].
    exists (v :: bytes). split_and!.
    + change (seq s (S k)) with (s :: seq (S s) k).
      rewrite fmap_cons, for_in_cons, Hv, bind_inr.
      rewrite bytearray_append_lt, bind_inr, Hloop by done.
      by rewrite <-(assoc (++)).
    + simpl. by rewrite Hk.
    + by constructor.
    + rewrite fmap_cons. change (mjoin (format_08b v :: (format_08b <$> bytes)))
        with (format_08b v ++ mjoin (format_08b <$> bytes)).
      rewrite Hfmt, Hjoin.
      replace (S s * 8) with (s * 8 + 8) by lia.
      rewrite <-drop_drop. apply take_take_drop.
Qed.

Lemma unpack_foldl data (acc : list bool) :
  foldl (λ s byte, s ++ format_08b byte) acc data
  = acc ++ mjoin (format_08b <$> data).
Proof.
  revert acc. induction data as [|v data IH]; intros acc; simpl.
  - by rewrite app_nil_r.
  - by rewrite IH, (assoc (++)).
Qed.

Lemma slice_to_neg_padding bits (p : nat) :
  p ≠ 0 → slice_to_neg (bits ++ replicate p false) p = bits.
Proof.
  intros Hp. unfold slice_to_neg. rewrite decide_False by done.
  rewrite length_app, length_replicate.
  replace (length bits + p - p) with (length bits) by lia.
  apply take_app_length.
Qed.

Lemma to_binary_string_spec bits :
  ∃ data,
    FileCompression.to_binary_string bits
      = inr (data, 8 - length bits `mod` 8) ∧
    length data * 8 = length bits + (8 - length bits `mod` 8) ∧
    Forall (λ v, (v < 256)%N) data ∧
    mjoin (format_08b <$> data)
      = bits ++ replicate (8 - length bits `mod` 8) false.
Proof.
  unfold FileCompression.to_binary_string.
  destruct (padding_spec (length bits)) as (Hp & Hlen & _).
  set (p := 8 - length bits `mod` 8) in *.
  set (padded := bits ++ replicate p false).
  assert (length padded = (length bits `div` 8 + 1) * 8) as Hpadded.
  { unfold padded. by rewrite length_app, length_replicate. }
  rewrite Hpadded, range0_multiple.
  destruct (pack_loop padded (length bits `div` 8 + 1) 0 [])
    as (data & -> & Hk & Hall & Hjoin); [rewrite Hpadded; lia|].
  exists data. rewrite bind_inr. split_and!; [done|lia|done|].
  rewrite Hjoin. rewrite drop_0. apply take_ge. lia.
Qed.

Lemma to_binary_string_nil :
  FileCompression.to_binary_string [] = inr ([0%N], 8).
Proof. reflexivity. Qed.

End Packing.

(** ** Shape of the root *)

Section Roots.
Context {A : Type} `{Countable A}.
Implicit Types (n l r : Node A) (text : list A).

Lemma wf_internal_two_keys n :
  wf_node n → character n = None → NoDup (leaves n).*1 →
  ∃ x y, x ≠ y ∧ x ∈ (leaves n).*1 ∧ y ∈ (leaves n).*1.
Proof.
  intros [ch f|l r Hl Hr] Hint Hnd; [done|]. simpl in *.
  rewrite fmap_app in Hnd. apply NoDup_app in Hnd as (_ & Hdisj & _).
  destruct (leaves l) as [|[x fx] ll] eqn:El;
    [by apply wf_node_leaves_nonempty in Hl|].
  destruct (leaves r) as [|[y fy] lr] eqn:Er;
    [by apply wf_node_leaves_nonempty in Hr|].
  exists x, y. split_and!.
  - intros ->. apply (Hdisj y); simpl; apply list_elem_of_here.
  - rewrite fmap_app. apply elem_of_app. left. simpl. apply list_elem_of_here.
  - rewrite fmap_app. apply elem_of_app. right. simpl. apply list_elem_of_here.
Qed.

Lemma root_internal text r :
  wf_node r → leaves r ≡ₚ count_frequencies text →
  two_distinct text → character r = None.
Proof.
  intros [ch f|l r' Hl Hr] Hleaves (x & y & Hx & Hy & Hxy); [|done].
  apply (proj2 (count_frequencies_elem_of text _)) in Hx, Hy.
  rewrite <-Hleaves in Hx, Hy. simpl in Hx, Hy.
  apply list_elem_of_singleton in Hx, Hy. congruence.
Qed.

Lemma root_leaf text r :
  wf_node r → leaves r ≡ₚ count_frequencies text →
  (∀ x y, x ∈ text → y ∈ text → x = y) →
  ∃ ch, r = mkNode (Some ch) (length text) None None ∧ ch ∈ text.
Proof.
  intros Hwf Hleaves Hsame.
  pose proof (wf_node_frequency r Hwf) as Hfreq.
  rewrite Hleaves, count_frequencies_sum in Hfreq.
  destruct (character r) as [ch|] eqn:Hch.
  - destruct Hwf as [ch' f|l r' Hl Hr]; [|done]. simpl in *.
    simplify_eq. exists ch. split; [done|].
    apply (proj1 (count_frequencies_elem_of text _)). rewrite <-Hleaves. simpl.
    apply list_elem_of_here.
  - destruct (wf_internal_two_keys r Hwf Hch) as (x & y & Hxy & Hx & Hy).
    { rewrite Hleaves. apply count_frequencies_NoDup. }
    rewrite Hleaves in Hx, Hy.
    apply (proj1 (count_frequencies_elem_of text _)) in Hx, Hy.
    destruct Hxy. by apply Hsame.
Qed.

Lemma encode_total (T : HuffmanTree A) text :
  (∀ x, x ∈ text → is_Some (codes T !! x)) → ∃ bits, encode T text = inr bits.
Proof.
  induction text as [|x text IH]; intros Hin; [by exists []|].
  destruct (Hin x) as [c Hc]; [apply list_elem_of_here|].
  destruct IH as [bits Hbits].
  { intros y Hy. apply Hin. by apply list_elem_of_further. }
  exists (c ++ bits). simpl. by rewrite Hc, Hbits.
Qed.

Lemma encode_inr_lookup (T : HuffmanTree A) text bits :
  encode T text = inr bits → ∀ x, x ∈ text → is_Some (codes T !! x).
Proof.
  revert bits. induction text as [|y text IH]; intros bits Henc x Hx.
  { by apply elem_of_nil in Hx. }
  simpl in Henc. destruct (codes T !! y) as [c|] eqn:Hy; [|done].
  destruct (encode T text) as [e|rest] eqn:Hrest; [done|].
  apply elem_of_cons in Hx as [->|Hx]; [by rewrite Hy|]. by eapply IH.
Qed.

Lemma encode_single_empty (T : HuffmanTree A) text ch :
  codes T !! ch = Some [] → (∀ x, x ∈ text → x = ch) →
  encode T text = inr [].
Proof.
  intros Hch. induction text as [|x text IH]; intros Hall; [done|].
  simpl. rewrite (Hall x), Hch by apply list_elem_of_here.
  rewrite IH; [done|]. intros y Hy. apply Hall. by apply list_elem_of_further.
Qed.

(** X14. The round trip of FileCompression.py when the text has at
    least two different symbols: [compress_file] returns, and
    [decompress_file] on the file it wrote, with the tree it returned,
    gives the text back. *)
Lemma FileCompression_round_trip text :
  two_distinct text →
  ∃ ret file,
    FileCompression.compress_file text = inr (ret, file) ∧
    FileCompression.decompress_file file ret.1.1 = inr text.
Proof.
  intros Htwo.
  assert (text ≠ []) as Hne.
  { destruct Htwo as (x & _ & Hx & _). intros ->. by apply elem_of_nil in Hx. }
  destruct (HuffmanTree_init_spec text Hne) as (r & HT & Hwf & Hleaves & Hnd).
  pose proof (root_internal text r Hwf Hleaves Htwo) as Hint.
  destruct (encode_decode_loop r text Hwf Hint Hnd) as (bits & Henc & Hdec).
  { intros x Hx. by apply (paths_elem_of_text text r x Hwf Hleaves). }
  destruct (to_binary_string_spec bits) as (data & Hpack & _ & _ & Hjoin).
  destruct (padding_spec (length bits)) as (Hp & _).
  set (p := 8 - length bits `mod` 8) in *.
  eexists _, _. split.
  - unfold FileCompression.compress_file.
    rewrite HT, bind_inr, Henc, bind_inr, Hpack, bind_inr. simpl.
    unfold struct_pack_B. rewrite decide_True by lia. reflexivity.
  - unfold FileCompression.decompress_file.
    change (take 1 ([N.of_nat p] ++ data)) with [N.of_nat p].
    change (drop 1 ([N.of_nat p] ++ data)) with data.
    change (struct_unpack_B [N.of_nat p]) with (inr (A:=exn) (N.to_nat (N.of_nat p))).
    rewrite bind_inr, Nat2N.id, unpack_foldl, Hjoin, app_nil_l.
    rewrite slice_to_neg_padding by lia.
    unfold decode_huffman. simpl.
    rewrite <-(app_nil_r bits), Hdec. done.
Qed.

(** X15. The same for MixAndEntropy.py: on data with at least two
    different symbols [compress_file] returns a tree and writes a file
    that [decompress_file] turns back into the data. *)
Lemma MixAndEntropy_round_trip text :
  two_distinct text →
  ∃ T file,
    MixAndEntropy.compress_file text = inr (Some T, Some file, length text) ∧
    MixAndEntropy.decompress_file file T = inr (Some text).
Proof.
  intros Htwo.
  assert (text ≠ []) as Hne.
  { destruct Htwo as (x & _ & Hx & _). intros ->. by apply elem_of_nil in Hx. }
  destruct (HuffmanTree_init_spec text Hne) as (r & HT & Hwf & Hleaves & Hnd).
  pose proof (root_internal text r Hwf Hleaves Htwo) as Hint.
  destruct (encode_decode_loop r text Hwf Hint Hnd) as (bits & Henc & Hdec).
  { intros x Hx. by apply (paths_elem_of_text text r x Hwf Hleaves). }
  destruct (padding_spec (length bits)) as (Hp & _).
  eexists _, _. split.
  - unfold MixAndEntropy.compress_file. destruct text as [|x text]; [done|].
    rewrite HT, bind_inr, Henc, bind_inr. done.
  - unfold MixAndEntropy.decompress_file.
    destruct (bits ++ replicate (8 - length bits `mod` 8) false) as [|b bs] eqn:E.
    { apply (f_equal length) in E. rewrite length_app, length_replicate in E.
      simpl in E. lia. }
    rewrite <-E, slice_to_neg_padding by lia.
    unfold decode_huffman. simpl.
    rewrite <-(app_nil_r bits), Hdec. done.
Qed.

End Roots.

(** * The claims of the specification *)

Section Claims.
Context {A : Type} `{Countable A}.
Implicit Types (n l r : Node A) (text : list A).

(** C9. In the tree that [build_tree] returns for a non-empty buffer,
    every internal node (a node without a symbol) has a left and a right
    child, both present, and its frequency is the sum of theirs; the
    frequency of the root is the length of the buffer. *)
Theorem build_tree_internal_nodes text :
  text ≠ [] →
  ∃ r, build_tree text = inr (Some r) ∧
       (∀ n, n ∈ subnodes r → internal_node_ok n) ∧
       frequency r = length text.
Proof.
  intros Hne. destruct (build_tree_spec text Hne) as (r & Hbuild & Hwf & Hleaves).
  exists r. split_and!; [done| |].
  - intros n Hn. apply wf_node_internal_ok.
    by apply (proj1 (Forall_forall _ _) (wf_node_subnodes r Hwf)).
  - by rewrite (wf_node_frequency r Hwf), Hleaves, count_frequencies_sum.
Qed.

(** C3. For a non-empty buffer the constructor builds a tree and a code
    table such that: the symbols met by the traversal are pairwise
    different, so no assignment to [self.codes] overwrites an earlier
    one; the table holds exactly the pairs (symbol, path) of the
    traversal; and the code of a symbol is never the beginning of the
    code of another symbol. *)
Theorem code_table_prefix_free text :
  text ≠ [] →
  ∃ T r, HuffmanTree_init text = inr T ∧ root T = Some r ∧
    codes T = generate_codes (Some r) [] ∅ ∧
    NoDup (paths r).*1 ∧
    size (codes T) = length (paths r) ∧
    (∀ x c, codes T !! x = Some c ↔ (x, c) ∈ paths r) ∧
    (∀ x y cx cy, x ≠ y →
       codes T !! x = Some cx → codes T !! y = Some cy →
       ¬ cx `prefix_of` cy).
Proof.
  intros Hne.
  destruct (HuffmanTree_init_spec text Hne) as (r & HT & Hwf & Hleaves & Hnd).
  eexists _, r. split; [exact HT|]. simpl.
  assert (∀ x c, (list_to_map (paths r) : gmap A (list bool)) !! x = Some c
                 ↔ (x, c) ∈ paths r) as Hlookup.
  { intros x c. symmetry. by apply elem_of_list_to_map. }
  split_and!; [done| |done| |done|].
  - symmetry. by apply (generate_codes_list_to_map r).
  - by apply map_size_list_to_map.
  - intros x y cx cy Hxy Hx%Hlookup Hy%Hlookup Hpre.
    apply Hxy. by eapply paths_prefix_free.
Qed.

(** C8. For a non-empty buffer every symbol of the buffer has an entry
    in the code table built from it, and [encode] returns: the lookup
    [self.codes[ch]] never raises [KeyError]. *)
Theorem encode_never_misses text :
  text ≠ [] →
  ∃ T, HuffmanTree_init text = inr T ∧
       (∀ x, x ∈ text → is_Some (codes T !! x)) ∧
       ∃ bits, encode T text = inr bits.
Proof.
  intros Hne.
  destruct (HuffmanTree_init_spec text Hne) as (r & HT & Hwf & Hleaves & Hnd).
  eexists. split; [exact HT|].
  assert (∀ x, x ∈ text →
    is_Some ((list_to_map (paths r) : gmap A (list bool)) !! x)) as Hall.
  { intros x [c Hc]%(paths_elem_of_text text r x Hwf Hleaves).
    exists c. by apply elem_of_list_to_map_1. }
  split; [done|]. by apply encode_total.
Qed.

(** C10. When the buffer holds at least two different symbols, decoding
    any bit string against its tree returns a list of symbols, never an
    exception, and emits at most one symbol per bit. *)
Theorem decode_huffman_total text :
  two_distinct text →
  ∃ T, HuffmanTree_init text = inr T ∧
       ∀ bits, ∃ out, decode_huffman bits T = inr out ∧
                      length out ≤ length bits.
Proof.
  intros Htwo.
  assert (text ≠ []) as Hne.
  { destruct Htwo as (x & _ & Hx & _). intros ->. by apply elem_of_nil in Hx. }
  destruct (HuffmanTree_init_spec text Hne) as (r & HT & Hwf & Hleaves & Hnd).
  pose proof (root_internal text r Hwf Hleaves Htwo) as Hint.
  eexists. split; [exact HT|]. intros bits.
  by apply (decode_loop_total r bits r []).
Qed.

(** C6, as the code has it.  There is no stream check in the decoder.
    Bits that stop in the middle of a code are dropped without an error:
    the symbols of the complete codes are returned.  The only failure is
    an [AttributeError], raised on the first bit when the root is a leaf
    or is missing, that is when the buffer the tree was built from holds
    fewer than two different symbols. *)
Theorem decode_huffman_incomplete_stream text T :
  HuffmanTree_init text = inr T →
  (∀ text' bits part, ends_mid_code T text' bits part →
     decode_huffman bits T = inr text') ∧
  ((∀ x y, x ∈ text → y ∈ text → x = y) →
     ∀ b bits, decode_huffman (b :: bits) T = inl AttributeError).
Proof.
  intros HT. destruct (decide (text = [])) as [->|Hne].
  { simpl in HT. injection HT as <-. split.
    - intros text' bits part (whole & x & rest & _ & _ & Hx & _). done.
    - by intros _ [] bits. }
  destruct (HuffmanTree_init_spec text Hne) as (r & HT' & Hwf & Hleaves & Hnd).
  rewrite HT' in HT. injection HT as <-.
  assert (∀ x c, (list_to_map (paths r) : gmap A (list bool)) !! x = Some c
                 → (x, c) ∈ paths r) as Hlookup.
  { intros x c. by apply elem_of_list_to_map_2. }
  split.
  - intros text' bits part (whole & x & rest & Henc & -> & Hx & Hpart & Hrest).
    apply Hlookup in Hx.
    assert (character r = None) as Hint.
    { destruct Hwf as [ch f|l r' Hl Hr]; [|done]. simpl in Hx.
      apply list_elem_of_singleton in Hx as [= _ [-> _]%app_eq_nil]. done. }
    destruct (encode_decode_loop r text' Hwf Hint Hnd) as (bits & Henc' & Hdec).
    { intros y Hy. destruct (encode_inr_lookup _ _ _ Henc y Hy) as [c Hc].
      exists c. by apply Hlookup. }
    rewrite Henc in Henc'. injection Henc' as <-.
    unfold decode_huffman. simpl. rewrite Hdec. simpl.
    by eapply decode_loop_partial.
  - intros Hsame b bits.
    destruct (root_leaf text r Hwf Hleaves Hsame) as (ch & -> & _).
    apply decode_loop_leaf_root.
Qed.

(** C5. The padding count is [8 - L mod 8], between 1 and 8, and 8 when
    the length is already a multiple of 8; the padded length is a
    multiple of 8; FileCompression.py returns one byte for each group of
    eight bits of the padded string, most significant bit first, with the
    count; MixAndEntropy.py returns the padded string with the count. *)
Theorem to_binary_string_padding (bits : list bool) :
  let L := length bits in
  let p := 8 - L `mod` 8 in
  1 ≤ p ≤ 8 ∧ (L `mod` 8 = 0 → p = 8) ∧ (L + p) `mod` 8 = 0 ∧
  (∃ data,
     FileCompression.to_binary_string bits = inr (data, p) ∧
     length data * 8 = L + p ∧
     Forall (λ v, (v < 256)%N) data ∧
     mjoin (format_08b <$> data) = bits ++ replicate p false) ∧
  MixAndEntropy.to_binary_string bits = (bits ++ replicate p false, p).
Proof.
  intros L p. destruct (padding_spec L) as (Hp & _ & Hmod).
  split_and!; [lia|lia|unfold p; lia|done| |done].
  apply to_binary_string_spec.
Qed.

(** C7, as the code has it.  FileCompression.py does not stop on an
    empty text: it builds no tree, encodes to the empty bit string and
    writes two bytes, the count 8 and one zero byte, which decompress to
    the empty text.  MixAndEntropy.py stops at once and returns
    [(None, None, 0)]: it writes no compressed file. *)
Theorem empty_input_behaviour :
  HuffmanTree_init ([] : list A) = inr (mkHuffmanTree ∅ None) ∧
  FileCompression.compress_file ([] : list A)
    = inr ((mkHuffmanTree ∅ None, 0, []), [8; 0]%N) ∧
  FileCompression.decompress_file [8; 0]%N (mkHuffmanTree (A:=A) ∅ None)
    = inr [] ∧
  MixAndEntropy.compress_file ([] : list A) = inr (None, None, 0).
Proof. by split_and!. Qed.

(** C4, as the code has it.  The tree and the code table are a function
    of the frequency map taken as the list of its entries in insertion
    order: two buffers with the same frequency map get the same
    [HuffmanTree], and the same first node out of the heap.  Equal
    frequencies are told apart by the position of the nodes in the heap
    only, [Node.__lt__] looks at nothing else. *)
Theorem HuffmanTree_deterministic (text1 text2 : list A) :
  count_frequencies text1 = count_frequencies text2 →
  HuffmanTree_init text1 = HuffmanTree_init text2 ∧
  first_extracted text1 = first_extracted text2.
Proof.
  intros Heq. split; [|unfold first_extracted; by rewrite Heq].
  unfold HuffmanTree_init.
  destruct text1 as [|x1 text1], text2 as [|x2 text2].
  - done.
  - symmetry in Heq. by apply (proj1 (count_frequencies_nil _)) in Heq.
  - by apply (proj1 (count_frequencies_nil _)) in Heq.
  - unfold build_tree. by rewrite Heq.
Qed.

(** C2, as the code has it.  A buffer that repeats one symbol gets a
    tree that is a single leaf, and [generate_codes] gives the symbol the
    empty code, not a code of one bit: the buffer encodes to the empty
    bit string. *)
Theorem single_symbol_empty_code (a : A) (k : nat) :
  ∃ T, HuffmanTree_init (replicate (S k) a) = inr T ∧
       root T = Some (mkNode (Some a) (S k) None None) ∧
       codes T = {[ a := [] ]} ∧
       codes T !! a ≠ Some [false] ∧
       encode T (replicate (S k) a) = inr [].
Proof.
  destruct (HuffmanTree_init_spec (replicate (S k) a)) as (r & HT & Hwf & Hleaves & _);
    [done|].
  destruct (root_leaf (replicate (S k) a) r Hwf Hleaves) as (ch & -> & Hch).
  { by intros x y ->%elem_of_replicate_inv ->%elem_of_replicate_inv. }
  apply elem_of_replicate_inv in Hch as ->.
  rewrite length_replicate in HT.
  change (list_to_map (paths (mkNode (Some a) (S k) None None)))
    with (<[a := []]> (∅ : gmap A (list bool))) in HT.
  rewrite insert_empty in HT.
  eexists. split; [exact HT|]. cbn [codes root].
  rewrite lookup_singleton_eq.
  split_and!; [done..|].
  apply (encode_single_empty _ _ a).
  - cbn [codes]. by rewrite lookup_singleton_eq.
  - by intros x ->%elem_of_replicate_inv.
Qed.

(** C1, as the code has it on a buffer that repeats one symbol.  The
    encoded text is empty, the file holds the count 8 and one zero byte,
    and decompression returns the empty text instead of the buffer, in
    both scripts.  (For a buffer with two different symbols the round
    trip holds: [FileCompression_round_trip], [MixAndEntropy_round_trip].) *)
Theorem round_trip_single_symbol (a : A) (k : nat) :
  let text := replicate (S k) a in
  (∃ T, FileCompression.compress_file text = inr ((T, S k, []), [8; 0]%N) ∧
        FileCompression.decompress_file [8; 0]%N T = inr [] ∧
        FileCompression.decompress_file [8; 0]%N T ≠ inr text) ∧
  (∃ T, MixAndEntropy.compress_file text
          = inr (Some T, Some (8, replicate 8 false), S k) ∧
        MixAndEntropy.decompress_file (8, replicate 8 false) T = inr (Some []) ∧
        MixAndEntropy.decompress_file (8, replicate 8 false) T ≠ inr (Some text)).
Proof.
  intros text.
  destruct (HuffmanTree_init_spec text) as (r & HT & Hwf & Hleaves & _); [done|].
  destruct (root_leaf text r Hwf Hleaves) as (ch & -> & Hch).
  { by intros x y ->%elem_of_replicate_inv ->%elem_of_replicate_inv. }
  apply elem_of_replicate_inv in Hch as ->.
  assert (encode (mkHuffmanTree (list_to_map
            (paths (mkNode (Some a) (length text) None None)))
            (Some (mkNode (Some a) (length text) None None))) text = inr [])
    as Henc.
  { apply (encode_single_empty _ _ a).
    - cbn [codes paths]. apply lookup_insert_eq.
    - by intros x ->%elem_of_replicate_inv. }
  split; eexists; (split; [|split; [reflexivity|done]]).
  - unfold FileCompression.compress_file.
    rewrite HT, bind_inr, Henc, bind_inr, to_binary_string_nil, bind_inr.
    unfold text. rewrite length_replicate. reflexivity.
  - unfold MixAndEntropy.compress_file. unfold text at 1.
    change (replicate (S k) a) with text.
    rewrite HT, bind_inr, Henc, bind_inr.
    unfold text. rewrite length_replicate. reflexivity.
Qed.

End Claims.

(** * Further properties of the code *)

(** ** The frequency counter of [build_tree] *)

Section FrequencyCounter.
Context {A : Type} `{Countable A}.
Implicit Types (m : list (A * nat)) (text : list A).

Lemma count_frequencies_snoc text ch :
  count_frequencies (text ++ [ch]) = freq_incr (count_frequencies text) ch.
Proof. unfold count_frequencies. by rewrite foldl_snoc. Qed.

(** X1. The keys of the frequency map are the symbols of the text, each
    once, in the order in which they first occur. *)
Theorem count_frequencies_first_occurrences text :
  (count_frequencies text).*1 = reverse (remove_dups (reverse text)).
Proof.
  induction text as [|ch text IH] using rev_ind; [done|].
  rewrite count_frequencies_snoc, freq_incr_keys, reverse_snoc.
  change (remove_dups (ch :: reverse text)) with
    (if decide_rel (∈) ch (reverse text) then remove_dups (reverse text)
     else ch :: remove_dups (reverse text)).
  destruct (decide (ch ∈ (count_frequencies text).*1)) as [Hin|Hnin];
    destruct (decide_rel (∈) ch (reverse text)) as [Hin'|Hnin'].
  - done.
  - destruct Hnin'. apply elem_of_reverse.
    by apply (proj1 (count_frequencies_elem_of text ch)).
  - destruct Hnin. apply (proj2 (count_frequencies_elem_of text ch)).
    by apply elem_of_reverse.
  - by rewrite reverse_cons, IH.
Qed.

Lemma freq_incr_elem m ch x c :
  NoDup m.*1 →
  (x, c) ∈ freq_incr m ch ↔
  (x ≠ ch ∧ (x, c) ∈ m) ∨
  (x = ch ∧ ((∃ c0, (ch, c0) ∈ m ∧ c = c0 + 1) ∨ ((ch ∉ m.*1) ∧ c = 1))).
Proof.
  induction m as [|[k v] m IH]; intros Hnd.
  - simpl. rewrite list_elem_of_singleton. split.
    + intros [= -> ->]. right. split; [done|]. right. split; [|done].
      apply not_elem_of_nil.
    + intros [[_ Hin]|[-> [(c0 & Hin & _)|[_ ->]]]];
        [by apply elem_of_nil in Hin..|done].
  - rewrite fmap_cons in Hnd. apply NoDup_cons in Hnd as [Hk Hnd].
    specialize (IH Hnd).
    change (freq_incr ((k, v) :: m) ch) with
      (if decide (k = ch) then (k, v + 1) :: m else (k, v) :: freq_incr m ch).
    destruct (decide (k = ch)) as [->|Hne].
    + rewrite elem_of_cons. split.
      * intros [[= -> ->]|Hin].
        -- right. split; [done|]. left. exists v. split; [|done].
           apply list_elem_of_here.
        -- left. split; [|by apply list_elem_of_further].
           intros ->. apply Hk. apply list_elem_of_fmap. by exists (ch, c).
      * intros [[Hx Hin]|[-> [(c0 & Hin & ->)|[Hnin _]]]].
        -- apply elem_of_cons in Hin as [[= ? ?]|Hin]; [done|by right].
        -- apply elem_of_cons in Hin as [[= ->]|Hin]; [by left|].
           destruct Hk. apply list_elem_of_fmap. by exists (ch, c0).
        -- destruct Hnin. rewrite fmap_cons. apply list_elem_of_here.
    + rewrite elem_of_cons, IH. split.
      * intros [[= -> ->]|[[Hx Hin]|[-> [(c0 & Hin & ->)|[Hnin ->]]]]].
        -- left. split; [done|]. apply list_elem_of_here.
        -- left. split; [done|]. by apply list_elem_of_further.
        -- right. split; [done|]. left. exists c0. split; [|done].
           by apply list_elem_of_further.
        -- right. split; [done|]. right. split; [|done].
           rewrite fmap_cons. intros [?|?]%elem_of_cons; simpl in *; congruence.
      * intros [[Hx Hin]|[-> [(c0 & Hin & ->)|[Hnin ->]]]].
        -- apply elem_of_cons in Hin as [[= -> ->]|Hin]; [by left|].
           right. left. done.
        -- apply elem_of_cons in Hin as [[= ? ?]|Hin]; [done|].
           right. right. split; [done|]. left. by exists c0.
        -- right. right. split; [done|]. right. split; [|done].
           intros Hin. apply Hnin. rewrite fmap_cons. by apply list_elem_of_further.
Qed.

Lemma filter_eq_not_elem text (x : A) :
  x ∉ text → filter (λ y, y = x) text = [].
Proof.
  induction text as [|y text IH]; intros Hx; [done|].
  apply not_elem_of_cons in Hx as [Hne Hx].
  rewrite filter_cons_False by congruence. by apply IH.
Qed.

(** X2. The count stored for a symbol is the number of times the symbol
    occurs in the text, and only symbols of the text have an entry. *)
Theorem count_frequencies_occurrences text x c :
  (x, c) ∈ count_frequencies text ↔
  x ∈ text ∧ c = length (filter (λ y, y = x) text).
Proof.
  revert c. induction text as [|ch text IH] using rev_ind; intros c.
  { split; [by intros ?%elem_of_nil|by intros [?%elem_of_nil _]]. }
  rewrite count_frequencies_snoc, freq_incr_elem by apply count_frequencies_NoDup.
  rewrite filter_app, length_app, elem_of_app, list_elem_of_singleton.
  change (filter (λ y, y = x) [ch]) with (if decide (ch = x) then [ch] else []).
  split.
  - intros [[Hx Hin]|[-> [(c0 & Hin & ->)|[Hnin ->]]]].
    + apply IH in Hin as [Hin ->]. rewrite decide_False by congruence.
      split; [by left|]. simpl. lia.
    + apply IH in Hin as [Hin ->]. rewrite decide_True by done.
      split; [by right|]. done.
    + rewrite decide_True by done. split; [by right|].
      rewrite filter_eq_not_elem; [done|].
      intros Hin. apply Hnin. by apply (proj2 (count_frequencies_elem_of text ch)).
  - intros [Hin ->]. destruct (decide (x = ch)) as [->|Hne].
    + right. split; [done|]. rewrite decide_True by done.
      destruct (decide (ch ∈ text)) as [Hch|Hch].
      * left. eexists. split; [|done]. by apply IH.
      * right. split.
        -- intros Hk. apply Hch. by apply (proj1 (count_frequencies_elem_of text ch)).
        -- by rewrite filter_eq_not_elem.
    + left. split; [done|]. rewrite decide_False by congruence.
      destruct Hin as [Hin|?]; [|done]. apply IH. split; [done|]. simpl. lia.
Qed.

Lemma freq_incr_weighted_sum (g : A → nat) m ch :
  sum_list_with (λ kv, kv.2 * g kv.1) (freq_incr m ch)
  = sum_list_with (λ kv, kv.2 * g kv.1) m + g ch.
Proof.
  induction m as [|[k v] m IH]; [simpl; lia|].
  change (freq_incr ((k, v) :: m) ch) with
    (if decide (k = ch) then (k, v + 1) :: m else (k, v) :: freq_incr m ch).
  destruct (decide (k = ch)) as [->|Hne]; simpl; [lia|].
  rewrite IH. lia.
Qed.

(** A sum over the text is a sum over the frequency map, each symbol
    weighted by its count. *)
Lemma sum_by_frequency (g : A → nat) text :
  sum_list_with g text
  = sum_list_with (λ kv, kv.2 * g kv.1) (count_frequencies text).
Proof.
  induction text as [|ch text IH] using rev_ind; [done|].
  rewrite count_frequencies_snoc, freq_incr_weighted_sum, sum_list_with_app, IH.
  simpl. lia.
Qed.

End FrequencyCounter.

(** ** The tree, the table and the two directions of the code *)

Section CodeTable.
Context {A : Type} `{Countable A}.
Implicit Types (n l r : Node A) (text : list A) (T : HuffmanTree A).
Implicit Types (c bits : list bool).

Lemma wf_node_subnodes_length n :
  wf_node n → length (subnodes n) = 2 * length (leaves n) - 1.
Proof.
  induction 1 as [ch f|l r Hl IHl Hr IHr]; simpl; [done|].
  apply wf_node_leaves_nonempty in Hl, Hr.
  rewrite !length_app, IHl, IHr.
  destruct (leaves l), (leaves r); simpl in *; try done. lia.
Qed.

(** X3. [build_tree] returns [None] exactly on the empty text.
    Otherwise the tree has one leaf for each entry of the frequency map,
    carrying that symbol and that count; every node is either such a
    leaf, without children, or an internal node with two children; and
    the tree has [2 k - 1] nodes for [k] different symbols. *)
Theorem build_tree_leaves text :
  (text = [] → build_tree text = inr None) ∧
  (text ≠ [] →
   ∃ r, build_tree text = inr (Some r) ∧ wf_node r ∧
        leaves r ≡ₚ count_frequencies text ∧
        length (subnodes r) = 2 * length (count_frequencies text) - 1).
Proof.
  split; [by intros ->|]. intros Hne.
  destruct (build_tree_spec text Hne) as (r & Hbuild & Hwf & Hleaves).
  exists r. split_and!; [done..|].
  by rewrite (wf_node_subnodes_length r Hwf), Hleaves.
Qed.

(** The table has an entry exactly for the symbols of the text. *)
Lemma codes_domain text T x :
  HuffmanTree_init text = inr T → is_Some (codes T !! x) ↔ x ∈ text.
Proof.
  intros HT. destruct (decide (text = [])) as [->|Hne].
  { simpl in HT. injection HT as <-. simpl. rewrite lookup_empty.
    split; [by intros []|by intros ?%elem_of_nil]. }
  destruct (HuffmanTree_init_spec text Hne) as (r & HT' & Hwf & Hleaves & Hnd).
  rewrite HT' in HT. injection HT as <-. simpl.
  rewrite (paths_elem_of_text text r x Hwf Hleaves). split.
  - intros [c Hc]. exists c. by apply elem_of_list_to_map_2.
  - intros [c Hc]. exists c. by apply elem_of_list_to_map_1.
Qed.

Lemma encode_missing T text x :
  x ∈ text → codes T !! x = None → encode T text = inl KeyError.
Proof.
  induction text as [|y text IH]; intros Hx Hnone.
  { by apply elem_of_nil in Hx. }
  simpl. destruct (codes T !! y) as [c|] eqn:Hy; [|done].
  apply elem_of_cons in Hx as [->|Hx]; [congruence|].
  by rewrite IH.
Qed.

(** X4. [encode] with the tree of [text] returns on every buffer made of
    symbols of [text], and raises [KeyError] on every buffer that holds a
    symbol [text] does not have. *)
Theorem encode_KeyError text T text' :
  HuffmanTree_init text = inr T →
  ((∀ x, x ∈ text' → x ∈ text) → ∃ bits, encode T text' = inr bits) ∧
  ((∃ x, x ∈ text' ∧ x ∉ text) → encode T text' = inl KeyError).
Proof.
  intros HT. split.
  - intros Hall. apply encode_total. intros x Hx.
    apply (proj2 (codes_domain text T x HT)). by apply Hall.
  - intros (x & Hx & Hnin). apply (encode_missing T text' x Hx).
    destruct (codes T !! x) as [c|] eqn:Hc; [|done].
    destruct Hnin. apply (proj1 (codes_domain text T x HT)). by exists c.
Qed.

(** X5. With the tree of a text that has two different symbols, every
    buffer over the symbols of the text encodes, and the decoder gives
    the buffer back from the bits; so two buffers with the same bits are
    the same buffer. *)
Theorem encode_decode_alphabet text :
  two_distinct text →
  ∃ T, HuffmanTree_init text = inr T ∧
    (∀ text', (∀ x, x ∈ text' → x ∈ text) →
       ∃ bits, encode T text' = inr bits ∧ decode_huffman bits T = inr text') ∧
    (∀ text1 text2 bits,
       encode T text1 = inr bits → encode T text2 = inr bits → text1 = text2).
Proof.
  intros Htwo.
  assert (text ≠ []) as Hne.
  { destruct Htwo as (x & _ & Hx & _). intros ->. by apply elem_of_nil in Hx. }
  destruct (HuffmanTree_init_spec text Hne) as (r & HT & Hwf & Hleaves & Hnd).
  pose proof (root_internal text r Hwf Hleaves Htwo) as Hint.
  eexists. split; [exact HT|].
  assert (∀ text', (∀ x, x ∈ text' → x ∈ text) →
    ∃ bits, encode (mkHuffmanTree (list_to_map (paths r)) (Some r)) text' = inr bits ∧
      decode_huffman bits (mkHuffmanTree (list_to_map (paths r)) (Some r)) = inr text')
    as Hround.
  { intros text' Hall.
    destruct (encode_decode_loop r text' Hwf Hint Hnd) as (bits & Henc & Hdec).
    { intros x Hx. apply (paths_elem_of_text text r x Hwf Hleaves). by apply Hall. }
    exists bits. split; [done|]. unfold decode_huffman. simpl.
    by rewrite <-(app_nil_r bits), Hdec. }
  split; [done|]. intros text1 text2 bits H1 H2.
  destruct (Hround text1) as (b1 & Hb1 & Hd1).
  { intros x Hx. apply (proj1 (codes_domain text _ x HT)).
    apply (encode_inr_lookup _ _ _ H1 x Hx). }
  destruct (Hround text2) as (b2 & Hb2 & Hd2).
  { intros x Hx. apply (proj1 (codes_domain text _ x HT)).
    apply (encode_inr_lookup _ _ _ H2 x Hx). }
  congruence.
Qed.

Lemma paths_length_bound n x c :
  wf_node n → (x, c) ∈ paths n → length c + 1 ≤ length (leaves n).
Proof.
  intros Hwf. revert c. induction Hwf as [ch f|l r Hl IHl Hr IHr]; intros c Hin.
  - simpl in *. by apply list_elem_of_singleton in Hin as [= _ ->].
  - simpl in Hin. cbn [leaves]. rewrite length_app.
    pose proof (wf_node_leaves_nonempty l Hl) as Hl'.
    pose proof (wf_node_leaves_nonempty r Hr) as Hr'.
    apply elem_of_app in Hin as [Hin|Hin];
      apply list_elem_of_fmap in Hin as ([x' c'] & [= -> ->] & Hin).
    + apply IHl in Hin. destruct (leaves r); [done|]. simpl in *. lia.
    + apply IHr in Hin. destruct (leaves l); [done|]. simpl in *. lia.
Qed.

(** X6. When the text has [k >= 2] different symbols, every code has at
    least one bit and at most [k - 1] bits (so [generate_codes] never
    recurses deeper than the number of different symbols). *)
Theorem code_length_bounds text :
  two_distinct text →
  ∃ T, HuffmanTree_init text = inr T ∧
    ∀ x c, codes T !! x = Some c →
      1 ≤ length c ≤ length (count_frequencies text) - 1.
Proof.
  intros Htwo.
  assert (text ≠ []) as Hne.
  { destruct Htwo as (x & _ & Hx & _). intros ->. by apply elem_of_nil in Hx. }
  destruct (HuffmanTree_init_spec text Hne) as (r & HT & Hwf & Hleaves & Hnd).
  pose proof (root_internal text r Hwf Hleaves Htwo) as Hint.
  eexists. split; [exact HT|]. simpl. intros x c Hc%elem_of_list_to_map_2.
  pose proof (paths_length_bound r x c Hwf Hc) as Hlen.
  rewrite Hleaves in Hlen. split; [|lia].
  destruct Hwf as [ch f|l r' Hl Hr]; [done|]. simpl in Hc.
  apply elem_of_app in Hc as [Hc|Hc];
    apply list_elem_of_fmap in Hc as ([x' c'] & [= -> ->] & _); simpl; lia.
Qed.

Lemma wf_node_paths_inhabited n : wf_node n → ∃ x c, (x, c) ∈ paths n.
Proof.
  induction 1 as [ch f|l r _ (x & c & Hin) _ _].
  - exists ch, []. apply list_elem_of_here.
  - exists x, (false :: c). simpl. apply elem_of_app. left.
    apply list_elem_of_fmap. by exists (x, c).
Qed.

Lemma paths_kraft n (D : nat) :
  wf_node n →
  (∀ x c, (x, c) ∈ paths n → length c ≤ D) →
  sum_list_with (λ kv, 2 ^ (D - length kv.2)) (paths n) = 2 ^ D.
Proof.
  intros Hwf. revert D. induction Hwf as [ch f|l r Hl IHl Hr IHr]; intros D HD.
  - simpl. rewrite Nat.sub_0_r. lia.
  - simpl in *.
    assert (∃ D', D = S D') as [D' ->].
    { destruct (wf_node_paths_inhabited l Hl) as (x & c & Hin).
      specialize (HD x (false :: c)). simpl in HD.
      destruct D; [|by eexists].
      assert (S (length c) ≤ 0); [|lia]. apply HD.
      apply elem_of_app. left. apply list_elem_of_fmap. by exists (x, c). }
    rewrite sum_list_with_app.
    assert (∀ b (ps : list (A * list bool)),
      sum_list_with (λ kv, 2 ^ (S D' - length kv.2)) (prod_map id (cons b) <$> ps)
      = sum_list_with (λ kv, 2 ^ (D' - length kv.2)) ps) as Hshift.
    { intros b ps. induction ps as [|[x c] ps IHps]; [done|].
      rewrite fmap_cons. simpl. by rewrite IHps. }
    rewrite !Hshift, IHl, IHr.
    + simpl. lia.
    + intros x c Hin. specialize (HD x (true :: c)). simpl in HD.
      assert (S (length c) ≤ S D'); [|lia]. apply HD.
      apply elem_of_app. right. apply list_elem_of_fmap. by exists (x, c).
    + intros x c Hin. specialize (HD x (false :: c)). simpl in HD.
      assert (S (length c) ≤ S D'); [|lia]. apply HD.
      apply elem_of_app. left. apply list_elem_of_fmap. by exists (x, c).
Qed.

(** X7. The code table of a non-empty text is complete: with [D] any
    bound on the code lengths, the numbers [2 ^ (D - length code)] of the
    table add up to [2 ^ D] (Kraft's sum is exactly one). *)
Theorem code_table_complete text :
  text ≠ [] →
  ∃ T, HuffmanTree_init text = inr T ∧
    ∀ D, (∀ x c, codes T !! x = Some c → length c ≤ D) →
      sum_list_with (λ kv, 2 ^ (D - length kv.2)) (map_to_list (codes T)) = 2 ^ D.
Proof.
  intros Hne.
  destruct (HuffmanTree_init_spec text Hne) as (r & HT & Hwf & Hleaves & Hnd).
  eexists. split; [exact HT|]. simpl. intros D HD.
  rewrite (map_to_list_to_map (paths r) Hnd).
  apply paths_kraft; [done|]. intros x c Hc. apply (HD x).
  by apply elem_of_list_to_map_1.
Qed.

Lemma encode_length T text bits :
  encode T text = inr bits →
  length bits = sum_list_with (λ x, length (default [] (codes T !! x))) text.
Proof.
  revert bits. induction text as [|x text IH]; intros bits Henc; simpl in *.
  { by injection Henc as <-. }
  destruct (codes T !! x) as [c|]; [|done].
  destruct (encode T text) as [e|rest]; [done|].
  simpl in Henc. injection Henc as <-. rewrite length_app, (IH rest); done.
Qed.

(** X8. The number of bits [encode] produces for the text the tree was
    built from is the sum, over the frequency map, of the count of each
    symbol times the length of its code. *)
Theorem encoded_length text :
  ∃ T bits, HuffmanTree_init text = inr T ∧ encode T text = inr bits ∧
    length bits =
      sum_list_with (λ kv, kv.2 * length (default [] (codes T !! kv.1)))
                    (count_frequencies text).
Proof.
  destruct (HuffmanTree_init text) as [e|T] eqn:HT.
  { destruct (decide (text = [])) as [->|Hne]; [done|].
    destruct (HuffmanTree_init_spec text Hne) as (r & HT' & _). congruence. }
  destruct (encode_total T text) as [bits Hbits].
  { intros x Hx. by apply (proj2 (codes_domain text T x HT)). }
  exists T, bits. split_and!; [done..|].
  rewrite (encode_length T text bits Hbits).
  apply (sum_by_frequency (λ x, length (default [] (codes T !! x)))).
Qed.

End CodeTable.

(** ** Packing and the two drivers *)

Section Drivers.
Context {A : Type} `{Countable A}.
Implicit Types (text : list A) (T : HuffmanTree A) (bits : list bool).

(** X9. Unpacking what [to_binary_string] packed, the way
    [decompress_file] does it (eight digits for each byte, then the last
    [padding] characters cut off), gives back the bit string, whatever
    the bit string; the same holds for the padded string of
    MixAndEntropy.py. *)
Theorem pack_unpack bits :
  (∃ data padding,
     FileCompression.to_binary_string bits = inr (data, padding) ∧
     slice_to_neg (foldl (λ s byte, s ++ format_08b byte) [] data) padding
       = bits) ∧
  slice_to_neg (MixAndEntropy.to_binary_string bits).1
               (MixAndEntropy.to_binary_string bits).2 = bits.
Proof.
  destruct (padding_spec (length bits)) as (Hp & _).
  split.
  - destruct (to_binary_string_spec bits) as (data & Hpack & _ & _ & Hjoin).
    exists data, (8 - length bits `mod` 8). split; [done|].
    rewrite unpack_foldl, Hjoin, app_nil_l. apply slice_to_neg_padding. lia.
  - unfold MixAndEntropy.to_binary_string. simpl.
    apply slice_to_neg_padding. lia.
Qed.

Lemma HuffmanTree_init_total text : ∃ T, HuffmanTree_init text = inr T.
Proof.
  destruct (decide (text = [])) as [->|Hne]; [by eexists|].
  destruct (HuffmanTree_init_spec text Hne) as (r & HT & _). by eexists.
Qed.

Lemma sum_list_with_zero {X} (g : X → nat) (l : list X) :
  (∀ x, x ∈ l → g x = 0) → sum_list_with g l = 0.
Proof.
  induction l as [|x l IH]; intros Hall; [done|]. simpl.
  rewrite (Hall x), IH; [done| |apply list_elem_of_here].
  intros y Hy. apply Hall. by apply list_elem_of_further.
Qed.

(** Decoding what [encode] made of the text of the tree never raises. *)
Lemma decode_encoded text T bits :
  HuffmanTree_init text = inr T → encode T text = inr bits →
  ∃ out, decode_huffman bits T = inr out ∧ (two_distinct text → out = text).
Proof.
  intros HT Henc. destruct (decide (text = [])) as [->|Hne].
  { simpl in Henc. injection Henc as <-. exists []. split; [done|].
    by intros (x & _ & ?%elem_of_nil & _). }
  destruct (HuffmanTree_init_spec text Hne) as (r & HT' & Hwf & Hleaves & Hnd).
  rewrite HT' in HT. injection HT as <-.
  destruct (character r) as [ch|] eqn:Hch.
  - assert (bits = []) as ->.
    { apply length_zero_iff_nil. rewrite (encode_length _ _ _ Henc).
      apply sum_list_with_zero. intros x _. simpl.
      destruct (list_to_map (paths r) !! x) as [c|] eqn:Hc; [|done].
      apply elem_of_list_to_map_2 in Hc.
      destruct Hwf as [ch' f|l r' Hl Hr]; [|done]. simpl in Hc.
      by apply list_elem_of_singleton in Hc as [= _ ->]. }
    exists []. split; [done|]. intros Htwo.
    pose proof (root_internal text r Hwf Hleaves Htwo). congruence.
  - destruct (encode_decode_loop r text Hwf Hch Hnd) as (bits' & Henc' & Hdec).
    { intros x Hx. by apply (paths_elem_of_text text r x Hwf Hleaves). }
    rewrite Henc in Henc'. injection Henc' as <-.
    exists text. split; [|done]. unfold decode_huffman. simpl.
    by rewrite <-(app_nil_r bits), Hdec.
Qed.

(** X10. FileCompression.py: [compress_file] returns on every text.  The
    file it writes is one count byte between 1 and 8 followed by
    [L div 8 + 1] bytes for an encoded text of [L] bits, and
    [decompress_file] returns on that file with the tree of the text. *)
Theorem FileCompression_compress_file_returns text :
  ∃ T bits data,
    let padding := 8 - length bits `mod` 8 in
    FileCompression.compress_file text
      = inr ((T, length text, bits), N.of_nat padding :: data) ∧
    encode T text = inr bits ∧
    1 ≤ padding ≤ 8 ∧
    length data = length bits `div` 8 + 1 ∧
    ∃ out, FileCompression.decompress_file (N.of_nat padding :: data) T = inr out.
Proof.
  destruct (HuffmanTree_init_total text) as [T HT].
  destruct (encode_total T text) as [bits Henc].
  { intros x Hx. by apply (proj2 (codes_domain text T x HT)). }
  destruct (to_binary_string_spec bits) as (data & Hpack & Hlen & _ & Hjoin).
  destruct (padding_spec (length bits)) as (Hp & Hpad & _).
  destruct (decode_encoded text T bits HT Henc) as (out & Hout & _).
  exists T, bits, data. cbv zeta.
  set (p := 8 - length bits `mod` 8) in *.
  split_and!; [|done|lia|lia|lia|].
  - unfold FileCompression.compress_file.
    rewrite HT, bind_inr, Henc, bind_inr, Hpack, bind_inr. simpl.
    unfold struct_pack_B. rewrite decide_True by lia. reflexivity.
  - exists out. unfold FileCompression.decompress_file.
    change (take 1 (N.of_nat p :: data)) with [N.of_nat p].
    change (drop 1 (N.of_nat p :: data)) with data.
    change (struct_unpack_B [N.of_nat p]) with (inr (A:=exn) (N.to_nat (N.of_nat p))).
    rewrite bind_inr, Nat2N.id, unpack_foldl, Hjoin, app_nil_l.
    by rewrite slice_to_neg_padding by lia.
Qed.

(** X11. MixAndEntropy.py: on non-empty data [compress_file] returns.
    The string it writes is never empty, so [decompress_file] does not
    take its "No data found" exit on it, and returns. *)
Theorem MixAndEntropy_compress_file_returns (data : list A) :
  data ≠ [] →
  ∃ T bits out,
    let padding := 8 - length bits `mod` 8 in
    MixAndEntropy.compress_file data
      = inr (Some T, Some (padding, bits ++ replicate padding false),
             length data) ∧
    encode T data = inr bits ∧
    bits ++ replicate padding false ≠ [] ∧
    MixAndEntropy.decompress_file
      (padding, bits ++ replicate padding false) T = inr (Some out).
Proof.
  intros Hne.
  destruct (HuffmanTree_init_total data) as [T HT].
  destruct (encode_total T data) as [bits Henc].
  { intros x Hx. by apply (proj2 (codes_domain data T x HT)). }
  destruct (padding_spec (length bits)) as (Hp & _).
  destruct (decode_encoded data T bits HT Henc) as (out & Hout & _).
  exists T, bits, out. cbv zeta.
  set (p := 8 - length bits `mod` 8) in *.
  assert (bits ++ replicate p false ≠ []) as Hpadded.
  { intros E. apply (f_equal length) in E.
    rewrite length_app, length_replicate in E. simpl in E. lia. }
  split_and!; [|done..|].
  - unfold MixAndEntropy.compress_file. destruct data as [|x data]; [done|].
    by rewrite HT, bind_inr, Henc, bind_inr.
  - unfold MixAndEntropy.decompress_file.
    destruct (bits ++ replicate p false) as [|b bs] eqn:E; [done|].
    rewrite <-E, slice_to_neg_padding by lia. by rewrite Hout.
Qed.

End Drivers.

(** ** heapq keeps its order, and what that gives [build_tree] *)

Section HeapOrder.
Context {A : Type} `{Countable A}.
Implicit Types (heap h : list (Node A)) (x y item : Node A).

Lemma is_child_parent i c : is_child i c → Nat.shiftr (c - 1) 1 = i ∧ 0 < c.
Proof.
  rewrite Nat.shiftr_div_pow2. change (2 ^ 1) with 2.
  intros [->| ->]; (split; [|lia]).
  - replace (2 * i + 1 - 1) with (i * 2) by lia. apply Nat.div_mul. lia.
  - replace (2 * i + 2 - 1) with (1 + i * 2) by lia.
    rewrite Nat.div_add by lia. done.
Qed.

Lemma parent_is_child c : 0 < c → is_child (Nat.shiftr (c - 1) 1) c.
Proof.
  intros Hc. rewrite Nat.shiftr_div_pow2. change (2 ^ 1) with 2.
  pose proof (Nat.div_mod_eq (c - 1) 2) as Hdm.
  pose proof (Nat.mod_upper_bound (c - 1) 2 ltac:(lia)) as Hlt.
  unfold is_child. lia.
Qed.

Lemma is_child_inj i j c : is_child i c → is_child j c → i = j.
Proof. unfold is_child. lia. Qed.

Lemma is_child_lt i c : is_child i c → i < c.
Proof. unfold is_child. lia. Qed.

Lemma descends_le s pos : descends s pos → s ≤ pos.
Proof.
  induction 1 as [|pos c _ IH Hc]; [done|]. apply is_child_lt in Hc. lia.
Qed.

Lemma descends_parent s pos :
  descends s pos → s < pos → descends s (Nat.shiftr (pos - 1) 1).
Proof.
  intros [|p c Hp Hc] Hlt; [lia|].
  by destruct (is_child_parent p c Hc) as [-> _].
Qed.

Lemma descends_0 pos : descends 0 pos.
Proof.
  induction (lt_wf pos) as [pos _ IH].
  destruct (decide (pos = 0)) as [->|Hne]; [constructor|].
  apply (descends_child 0 (Nat.shiftr (pos - 1) 1)).
  - apply IH. apply shiftr1_lt. lia.
  - apply parent_is_child. lia.
Qed.

Lemma getitem_inr {X} (l : list X) i (a : X) :
  getitem l i = inr a → l !! i = Some a.
Proof. unfold getitem. by destruct (l !! i); intros [= ->]. Qed.

Lemma setitem_inr {X} (l l' : list X) i (a : X) :
  setitem l i a = inr l' → l' = <[i:=a]> l ∧ i < length l.
Proof. unfold setitem. case_decide; [|done]. by intros [= <-]. Qed.

Lemma sift_inv_insert s pos h v :
  sift_inv s pos h → sift_inv s pos (<[pos:=v]> h).
Proof.
  intros (Hd & H1 & H3). split_and!; [done| |].
  - intros i c x y Hi Hc Hip Hcp. rewrite !list_lookup_insert_ne by done.
    by apply H1.
  - intros p c x y Hp Hpc Hc.
    apply is_child_lt in Hpc as Hlt1. apply is_child_lt in Hc as Hlt2.
    rewrite !list_lookup_insert_ne by lia. by apply H3.
Qed.

(** Filling the free slot with an item that fits gives the order back. *)
Lemma sift_inv_fill s pos h v :
  sift_inv s pos h → pos < length h →
  (∀ c y, is_child pos c → h !! c = Some y → frequency v ≤ frequency y) →
  (∀ p x, s ≤ p → is_child p pos → h !! p = Some x → frequency x ≤ frequency v) →
  heap_from s (<[pos:=v]> h).
Proof.
  intros (Hd & H1 & H3) Hpos Hbelow Habove i c x y Hi Hc Hx Hy.
  apply is_child_lt in Hc as Hlt.
  destruct (decide (i = pos)) as [->|Hip].
  - rewrite list_lookup_insert_eq in Hx by done. injection Hx as <-.
    rewrite list_lookup_insert_ne in Hy by lia. by eapply Hbelow.
  - rewrite list_lookup_insert_ne in Hx by done.
    destruct (decide (c = pos)) as [->|Hcp].
    + rewrite list_lookup_insert_eq in Hy by done. injection Hy as <-.
      by eapply Habove.
    + rewrite list_lookup_insert_ne in Hy by done. by eapply H1.
Qed.

Lemma Node_lt_spec x y : Node_lt x y = true ↔ frequency x < frequency y.
Proof. unfold Node_lt. apply bool_decide_eq_true. Qed.

Lemma siftdown_loop_order fuel v s : ∀ h pos h' pos',
  siftdown_loop fuel v s h pos = inr (h', pos') →
  pos < length h → sift_inv s pos h →
  (∀ c y, is_child pos c → h !! c = Some y → frequency v ≤ frequency y) →
  heap_from s (<[pos':=v]> h').
Proof.
  induction fuel as [|fuel IH]; intros h pos h' pos' Hloop Hpos Hinv Hbelow.
  - simpl in Hloop. destruct (decide (s < pos)) as [Hlt|Hnlt]; [done|].
    injection Hloop as <- <-. apply sift_inv_fill; [done..|].
    intros p x Hp Hc _. apply is_child_lt in Hc. lia.
  - rewrite siftdown_loop_S in Hloop. cbv zeta in Hloop.
    destruct (decide (s < pos)) as [Hlt|Hnlt]; last first.
    { injection Hloop as <- <-. apply sift_inv_fill; [done..|].
      intros p x Hp Hc _. apply is_child_lt in Hc. lia. }
    set (p := Nat.shiftr (pos - 1) 1) in *.
    assert (is_child p pos) as Hppos by (apply parent_is_child; lia).
    apply is_child_lt in Hppos as Hplt.
    destruct (getitem h p) as [e|parent] eqn:Hparent; [done|].
    apply getitem_inr in Hparent. rewrite bind_inr in Hloop.
    destruct (Node_lt v parent) eqn:Hcmp; last first.
    { injection Hloop as <- <-. apply sift_inv_fill; [done..|].
      intros q x Hq Hc Hx. rewrite (is_child_inj q p pos Hc Hppos) in Hx.
      assert (x = parent) as -> by congruence.
      apply not_true_iff_false in Hcmp. rewrite Node_lt_spec in Hcmp. lia. }
    apply Node_lt_spec in Hcmp.
    rewrite setitem_lt, bind_inr in Hloop by done.
    destruct Hinv as (Hd & H1 & H3).
    assert (s ≤ p) as Hsp.
    { apply descends_le. by apply descends_parent. }
    apply (IH _ _ _ _ Hloop).
    + rewrite length_insert. lia.
    + split_and!.
      * by apply descends_parent.
      * intros i c x y Hi Hc Hip Hcp Hx Hy.
        destruct (decide (i = pos)) as [->|Hipos].
        -- rewrite list_lookup_insert_eq in Hx by done. injection Hx as <-.
           apply is_child_lt in Hc as Hlt'.
           rewrite list_lookup_insert_ne in Hy by lia.
           by apply (H3 p c parent y).
        -- rewrite list_lookup_insert_ne in Hx by done.
           destruct (decide (c = pos)) as [->|Hcpos].
           { destruct Hip. by apply (is_child_inj i p pos). }
           rewrite list_lookup_insert_ne in Hy by done.
           by apply (H1 i c).
      * intros q c x y Hq Hqp Hc Hx Hy.
        apply is_child_lt in Hqp as Hqlt.
        rewrite list_lookup_insert_ne in Hx by lia.
        assert (frequency x ≤ frequency parent) as Hxp.
        { apply (H1 q p); [done|done|lia|lia|done|done]. }
        destruct (decide (c = pos)) as [->|Hcpos].
        -- rewrite list_lookup_insert_eq in Hy by done. by injection Hy as <-.
        -- rewrite list_lookup_insert_ne in Hy by done.
           assert (frequency parent ≤ frequency y); [|lia].
           apply (H1 p c); [done|done|lia|done|done|done].
    + intros c y Hc Hy. destruct (decide (c = pos)) as [->|Hcpos].
      * rewrite list_lookup_insert_eq in Hy by done. injection Hy as <-. lia.
      * rewrite list_lookup_insert_ne in Hy by done.
        assert (frequency parent ≤ frequency y); [|lia].
        apply (H1 p c); [done|done|lia|done|done|done].
Qed.

Lemma _siftdown_order heap s pos heap' :
  _siftdown heap s pos = inr heap' →
  sift_inv s pos heap →
  (∀ c x y, is_child pos c → heap !! pos = Some x → heap !! c = Some y →
     frequency x ≤ frequency y) →
  heap_from s heap'.
Proof.
  unfold _siftdown. intros Hsift Hinv Hbelow.
  destruct (getitem heap pos) as [e|v] eqn:Hv; [done|].
  apply getitem_inr in Hv. rewrite bind_inr in Hsift.
  destruct (siftdown_loop pos v s heap pos) as [e|[h' pos']] eqn:Hloop; [done|].
  rewrite bind_inr in Hsift. simpl in Hsift.
  apply setitem_inr in Hsift as [-> _].
  apply (siftdown_loop_order _ _ _ _ _ _ _ Hloop); [|done|].
  - by apply lookup_lt_Some in Hv.
  - intros c y Hc Hy. by apply (Hbelow c v y).
Qed.

Lemma siftup_loop_order fuel s : ∀ h pos h' pos',
  siftup_loop fuel (length h) h pos = inr (h', pos') →
  pos < length h → sift_inv s pos h →
  sift_inv s pos' h' ∧ length h' = length h ∧ pos' < length h ∧
  (∀ c, is_child pos' c → length h ≤ c).
Proof.
  induction fuel as [|fuel IH]; intros h pos h' pos' Hloop Hpos Hinv.
  - simpl in Hloop.
    destruct (decide (pos + (pos + 0) + 1 < length h)) as [Hlt|Hnlt]; [done|].
    injection Hloop as <- <-. split_and!; [done..|].
    unfold is_child. lia.
  - rewrite siftup_loop_S in Hloop. cbv zeta in Hloop.
    destruct (decide (2 * pos + 1 < length h)) as [Hlt|Hnlt]; last first.
    { injection Hloop as <- <-. split_and!; [done..|]. unfold is_child. lia. }
    destruct Hinv as (Hd & H1 & H3).
    (* the smaller child *)
    assert (∃ c child,
      (if decide (2 * pos + 1 + 1 < length h)
       then c0 ← getitem h (2 * pos + 1);
            r ← getitem h (2 * pos + 1 + 1);
            mret (if negb (Node_lt c0 r) then 2 * pos + 1 + 1 else 2 * pos + 1)
       else mret (2 * pos + 1)) = inr c ∧
      is_child pos c ∧ h !! c = Some child ∧
      ∀ k y, is_child pos k → k ≠ c → h !! k = Some y →
             frequency child ≤ frequency y) as (c & child & Hc & Hpc & Hchild & Hsmall).
    { destruct (lookup_lt_is_Some_2 h (2 * pos + 1) Hlt) as [c0 Hc0].
      destruct (decide (2 * pos + 1 + 1 < length h)) as [Hr|Hnr].
      - destruct (lookup_lt_is_Some_2 h (2 * pos + 1 + 1) Hr) as [r Hr0].
        rewrite (getitem_Some _ _ _ Hc0), bind_inr.
        rewrite (getitem_Some _ _ _ Hr0), bind_inr.
        destruct (Node_lt c0 r) eqn:Hcmp; simpl.
        + apply Node_lt_spec in Hcmp.
          exists (2 * pos + 1), c0. split_and!; [done|by left|done|].
          intros k y [->| ->] Hk Hy; [done|].
          replace (2 * pos + 2) with (2 * pos + 1 + 1) in Hy by lia.
          assert (y = r) as -> by congruence. lia.
        + apply not_true_iff_false in Hcmp. rewrite Node_lt_spec in Hcmp.
          exists (2 * pos + 1 + 1), r. split_and!; [done|right; lia|done|].
          intros k y [->| ->] Hk Hy; [|lia].
          assert (y = c0) as -> by congruence. lia.
      - exists (2 * pos + 1), c0. split_and!; [done|by left|done|].
        intros k y [->| ->] Hk Hy; [done|].
        apply lookup_lt_Some in Hy. lia. }
    rewrite Hc, bind_inr in Hloop.
    rewrite (getitem_Some _ _ _ Hchild), bind_inr in Hloop.
    rewrite setitem_lt, bind_inr in Hloop by done.
    apply is_child_lt in Hpc as Hpclt.
    apply lookup_lt_Some in Hchild as Hclt.
    rewrite <-(length_insert h pos child) in Hloop.
    apply IH in Hloop as (Hinv' & Hlen & Hpos' & Hleaf).
    + rewrite length_insert in Hlen, Hpos', Hleaf. done.
    + by rewrite length_insert.
    + split_and!.
      * by apply (descends_child s pos).
      * intros i k x y Hi Hik Hic Hkc Hx Hy.
        destruct (decide (i = pos)) as [->|Hipos].
        -- rewrite list_lookup_insert_eq in Hx by done. injection Hx as <-.
           apply is_child_lt in Hik as Hlt'.
           rewrite list_lookup_insert_ne in Hy by lia.
           by apply (Hsmall k y).
        -- rewrite list_lookup_insert_ne in Hx by done.
           destruct (decide (k = pos)) as [->|Hkpos].
           ++ rewrite list_lookup_insert_eq in Hy by done. injection Hy as <-.
              by apply (H3 i c x child).
           ++ rewrite list_lookup_insert_ne in Hy by done.
              by apply (H1 i k).
      * intros q k x y Hq Hqc Hck Hx Hy.
        rewrite (is_child_inj q pos c Hqc Hpc) in Hx.
        rewrite list_lookup_insert_eq in Hx by done. injection Hx as <-.
        apply is_child_lt in Hck as Hlt'.
        rewrite list_lookup_insert_ne in Hy by lia.
        apply (H1 c k); [|done|lia|lia|done|done].
        apply descends_le in Hd. lia.
Qed.

Lemma _siftup_order heap s heap' :
  _siftup heap s = inr heap' → heap_from (S s) heap → heap_from s heap'.
Proof.
  unfold _siftup. intros Hsift Hheap.
  destruct (getitem heap s) as [e|v] eqn:Hv; [done|].
  apply getitem_inr, lookup_lt_Some in Hv. rewrite bind_inr in Hsift.
  destruct (siftup_loop (length heap) (length heap) heap s)
    as [e|[h1 pos1]] eqn:Hloop; [done|].
  rewrite bind_inr in Hsift. simpl in Hsift.
  apply (siftup_loop_order _ s) in Hloop as (Hinv & Hlen & Hpos1 & Hleaf);
    [|done|].
  - rewrite setitem_lt, bind_inr in Hsift by lia.
    apply _siftdown_order in Hsift; [done| |].
    + by apply sift_inv_insert.
    + intros c x y Hc _ Hy. apply lookup_lt_Some in Hy.
      rewrite length_insert in Hy. specialize (Hleaf c Hc). lia.
  - split_and!; [constructor| |].
    + intros i c x y Hi Hc His _. apply Hheap; [lia|done].
    + intros p c x y Hp Hps. apply is_child_lt in Hps. lia.
Qed.

Lemma heapify_loop_order k : ∀ h h',
  for_in (reverse (seq 0 k)) (λ (a : list (Node A)) i, _siftup a i) h = inr h' →
  heap_from k h → heap_from 0 h'.
Proof.
  induction k as [|k IH]; intros h h' Hfor Hheap.
  - simpl in Hfor. by injection Hfor as <-.
  - rewrite seq_S, reverse_snoc, for_in_cons in Hfor. simpl in Hfor.
    destruct (_siftup h k) as [e|h1] eqn:Hsift; [done|].
    rewrite bind_inr in Hfor.
    apply (IH _ _ Hfor). by apply (_siftup_order h k).
Qed.

Lemma heapify_order heap heap' :
  heapify heap = inr heap' → heap_from 0 heap'.
Proof.
  unfold heapify. intros Hfor. apply heapify_loop_order in Hfor; [done|].
  intros i c x y Hi Hc _ Hy. apply lookup_lt_Some in Hy.
  pose proof (Nat.div_mod_eq (length heap) 2) as Hdm.
  pose proof (Nat.mod_upper_bound (length heap) 2 ltac:(lia)) as Hlt.
  unfold is_child in Hc. lia.
Qed.

Lemma heappush_order heap item heap' :
  heappush heap item = inr heap' → heap_from 0 heap → heap_from 0 heap'.
Proof.
  unfold heappush. intros Hpush Hheap.
  apply _siftdown_order in Hpush; [done| |].
  - rewrite length_app. simpl.
    replace (length heap + 1 - 1) with (length heap) by lia.
    split_and!; [apply descends_0| |].
    + intros i c x y _ Hc Hi Hcp Hx Hy.
      apply lookup_lt_Some in Hx as Hxlt, Hy as Hylt.
      rewrite length_app in Hxlt, Hylt. simpl in *.
      rewrite lookup_app_l in Hx, Hy by lia.
      apply (Hheap i c); [lia|done..].
    + intros p c x y _ _ Hc _ Hy. apply is_child_lt in Hc.
      apply lookup_lt_Some in Hy. rewrite length_app in Hy. simpl in *. lia.
  - intros c x y Hc _ Hy. apply is_child_lt in Hc.
    apply lookup_lt_Some in Hy. rewrite length_app in Hy, Hc. simpl in *. lia.
Qed.

(** The root of a heap is a least item. *)
Lemma heap_root_min heap x :
  heap_from 0 heap → heap !! 0 = Some x →
  ∀ y, y ∈ heap → frequency x ≤ frequency y.
Proof.
  intros Hheap Hx y [i Hy]%list_elem_of_lookup. revert y Hy.
  induction (lt_wf i) as [i _ IH]; intros y Hy.
  destruct (decide (i = 0)) as [->|Hne]; [by simplify_eq|].
  pose proof (shiftr1_lt i ltac:(lia)) as Hlt.
  destruct (lookup_lt_is_Some_2 heap (Nat.shiftr (i - 1) 1)) as [z Hz].
  { apply lookup_lt_Some in Hy. lia. }
  specialize (IH _ Hlt z Hz).
  assert (frequency z ≤ frequency y); [|lia].
  apply (Hheap (Nat.shiftr (i - 1) 1) i); [lia| |done|done].
  apply parent_is_child. lia.
Qed.

Lemma heappop_order heap item heap' :
  heappop heap = inr (item, heap') → heap_from 0 heap →
  heap_from 0 heap' ∧ ∀ y, y ∈ heap' → frequency item ≤ frequency y.
Proof.
  intros Hpop Hheap.
  assert (heap ≠ []) as Hne by (by intros ->).
  destruct (heappop_spec heap Hne) as (item' & heap'' & Hpop' & Hperm).
  rewrite Hpop in Hpop'. injection Hpop' as <- <-.
  split; last first.
  { assert (heap !! 0 = Some item ∨ heap' = []) as [Hroot| ->].
    { unfold heappop in Hpop.
      destruct (proj2 (last_is_Some heap) Hne) as [lastelt Hlast].
      apply last_Some in Hlast as [init ->].
      rewrite list_pop_snoc, bind_inr in Hpop. simpl in Hpop.
      destruct init as [|returnitem rest].
      - injection Hpop as <- <-. by right.
      - left. change (getitem (returnitem :: rest) 0)
          with (inr (A:=exn) returnitem) in Hpop.
        rewrite bind_inr in Hpop.
        destruct (setitem (returnitem :: rest) 0 lastelt) as [e|h1]; [done|].
        rewrite bind_inr in Hpop.
        destruct (_siftup h1 0) as [e|h2]; [done|].
        rewrite bind_inr in Hpop. by injection Hpop as <- <-. }
    - intros y Hy. apply (heap_root_min heap item Hheap Hroot).
      rewrite Hperm. by apply list_elem_of_further.
    - by intros y ?%elem_of_nil. }
  unfold heappop in Hpop.
  destruct (proj2 (last_is_Some heap) Hne) as [lastelt Hlast].
  apply last_Some in Hlast as [init ->].
  rewrite list_pop_snoc, bind_inr in Hpop. simpl in Hpop.
  destruct init as [|returnitem rest].
  { injection Hpop as <- <-. by intros i c x y _ _ ?. }
  change (getitem (returnitem :: rest) 0)
    with (inr (A:=exn) returnitem) in Hpop.
  rewrite bind_inr in Hpop.
  rewrite setitem_lt, bind_inr in Hpop by (simpl; lia).
  destruct (_siftup (<[0:=lastelt]> (returnitem :: rest)) 0) as [e|h2] eqn:Hsift;
    [done|].
  rewrite bind_inr in Hpop. injection Hpop as <- <-.
  apply (_siftup_order _ _ _ Hsift).
  intros i c x y Hi Hc Hx Hy. apply is_child_lt in Hc as Hlt.
  rewrite list_lookup_insert_ne in Hx, Hy by lia.
  apply (Hheap i c); [lia|done| |].
  - by apply lookup_app_l_Some.
  - by apply lookup_app_l_Some.
Qed.

Lemma build_loop_order fuel : ∀ heap r,
  build_loop fuel heap = inr [r] →
  heap_from 0 heap →
  Forall (λ t, Forall ordered_children (subnodes t)) heap →
  Forall ordered_children (subnodes r).
Proof.
  induction fuel as [|fuel IH]; intros heap r Hloop Hheap Hall.
  - simpl in Hloop. destruct (decide (1 < length heap)); [done|].
    injection Hloop as ->. by apply Forall_inv in Hall.
  - simpl in Hloop. destruct (decide (1 < length heap)) as [Hlen|Hlen]; last first.
    { injection Hloop as ->. by apply Forall_inv in Hall. }
    destruct (heappop heap) as [e|[l heap1]] eqn:Hpop1; [done|].
    rewrite bind_inr in Hloop. simpl in Hloop.
    destruct (heappop heap1) as [e|[r0 heap2]] eqn:Hpop2; [done|].
    rewrite bind_inr in Hloop. simpl in Hloop.
    destruct (heappush heap2 _) as [e|heap3] eqn:Hpush; [done|].
    rewrite bind_inr in Hloop.
    assert (heap ≠ []) as Hne by (intros ->; simpl in Hlen; lia).
    destruct (heappop_spec heap Hne) as (? & ? & Hpop1' & Hperm1).
    rewrite Hpop1 in Hpop1'. injection Hpop1' as <- <-.
    assert (heap1 ≠ []) as Hne1.
    { intros ->. apply Permutation_length in Hperm1. simpl in Hperm1. lia. }
    destruct (heappop_spec heap1 Hne1) as (? & ? & Hpop2' & Hperm2).
    rewrite Hpop2 in Hpop2'. injection Hpop2' as <- <-.
    destruct (heappush_spec heap2
      (mkNode None (frequency l + frequency r0) (Some l) (Some r0)))
      as (? & Hpush' & Hperm3).
    rewrite Hpush in Hpush'. injection Hpush' as <-.
    destruct (heappop_order _ _ _ Hpop1 Hheap) as (Hheap1 & Hmin1).
    destruct (heappop_order _ _ _ Hpop2 Hheap1) as (Hheap2 & _).
    apply (IH _ _ Hloop).
    + by apply (heappush_order heap2 _ heap3 Hpush).
    + rewrite Hperm1, Hperm2 in Hall.
      apply Forall_cons in Hall as [Hl [Hr Hall2]%Forall_cons].
      rewrite Hperm3. constructor; [|done]. simpl.
      constructor; [|by apply Forall_app].
      intros l' r' [= <-] [= <-]. apply Hmin1.
      rewrite Hperm2. apply list_elem_of_here.
Qed.

(** X12. In the tree of a non-empty text the left child of every
    internal node is not more frequent than its right child: the node
    taken out of the heap first, the left one, is a least one. *)
Theorem build_tree_ordered (text : list A) :
  text ≠ [] →
  ∃ r, build_tree text = inr (Some r) ∧
       ∀ n, n ∈ subnodes r → ordered_children n.
Proof.
  intros Hne. destruct (build_tree_spec text Hne) as (r & Hbuild & _).
  exists r. split; [done|]. apply Forall_forall.
  unfold build_tree in Hbuild.
  destruct (heapify _) as [e|heap] eqn:Hheapify; [done|].
  rewrite bind_inr in Hbuild.
  destruct (build_loop (length heap) heap) as [e|heap'] eqn:Hloop; [done|].
  rewrite bind_inr in Hbuild.
  destruct (heapify_spec (initial_heap (count_frequencies text)))
    as (? & Hheapify' & Hperm).
  unfold initial_heap in Hheapify'. rewrite Hheapify in Hheapify'.
  injection Hheapify' as <-.
  destruct (build_loop_spec (length heap) heap (count_frequencies text))
    as (r' & Hloop' & _).
  { rewrite Hperm. apply initial_heap_wf. }
  { by rewrite Hperm, initial_heap_leaves. }
  { intros ->. apply Permutation_nil_l in Hperm. symmetry in Hperm.
    apply fmap_nil_inv in Hperm.
    by apply (proj1 (count_frequencies_nil text)) in Hperm. }
  { lia. }
  rewrite Hloop in Hloop'. injection Hloop' as ->.
  injection Hbuild as <-.
  apply (build_loop_order _ _ _ Hloop).
  - by apply (heapify_order _ _ Hheapify).
  - rewrite Hperm. apply Forall_fmap, Forall_forall. intros [ch f] _. simpl.
    constructor; [|constructor]. by intros l r0 [=].
Qed.

(** X13. The first node [build_tree] takes out of its heap is the leaf
    of a symbol whose count is least in the frequency map. *)
Theorem first_extracted_least (text : list A) :
  text ≠ [] →
  ∃ ch c, first_extracted text = inr (Some ch) ∧
          (ch, c) ∈ count_frequencies text ∧
          ∀ ch' c', (ch', c') ∈ count_frequencies text → c ≤ c'.
Proof.
  intros Hne. unfold first_extracted.
  change (_ <$> count_frequencies text)
    with (initial_heap (count_frequencies text)).
  destruct (heapify_spec (initial_heap (count_frequencies text)))
    as (heap & Hheapify & Hperm).
  pose proof (heapify_order _ _ Hheapify) as Hheap.
  rewrite Hheapify, bind_inr.
  assert (heap ≠ []) as Hne'.
  { intros ->. apply Permutation_nil_l in Hperm. symmetry in Hperm.
    apply fmap_nil_inv in Hperm.
    by apply (proj1 (count_frequencies_nil text)) in Hperm. }
  destruct (heappop_spec heap Hne') as (node & heap' & Hpop & Hperm').
  destruct (heappop_order _ _ _ Hpop Hheap) as (_ & Hmin).
  rewrite Hpop, bind_inr. simpl.
  assert (node ∈ initial_heap (count_frequencies text)) as Hnode.
  { rewrite <-Hperm, Hperm'. apply list_elem_of_here. }
  apply list_elem_of_fmap in Hnode as ([ch c] & -> & Hin).
  exists ch, c. split_and!; [done..|].
  intros ch' c' Hin'.
  assert (mkNode (Some ch') c' None None ∈ mkNode (Some ch) c None None :: heap') as Hin''.
  { rewrite <-Hperm', Hperm. apply list_elem_of_fmap. by exists (ch', c'). }
  apply elem_of_cons in Hin'' as [[= _ ->]|Hin'']; [done|].
  by apply (Hmin _ Hin'').
Qed.

End HeapOrder.

(** ** No tree is cheaper than the one [build_tree] builds *)

Section Exchange.

Lemma sum_list_with_cons {X} (f : X → nat) (x : X) (l : list X) :
  sum_list_with f (x :: l) = f x + sum_list_with f l.
Proof. reflexivity. Qed.

Lemma wcost_cons w d (L : list (nat * nat)) :
  wcost ((w, d) :: L) = w * d + wcost L.
Proof. reflexivity. Qed.

Lemma wcost_Permutation (L L' : list (nat * nat)) :
  L ≡ₚ L' → wcost L = wcost L'.
Proof. unfold wcost. by intros ->. Qed.

Lemma kraft_Permutation ds ds' : ds ≡ₚ ds' → kraft ds → kraft ds'.
Proof.
  intros Hperm Hk D HD. rewrite <-Hperm. apply Hk.
  intros d Hd. apply HD. by rewrite <-Hperm.
Qed.

Lemma kraft_sum_scale ds D k :
  (∀ d, d ∈ ds → d ≤ D) →
  sum_list_with (λ d, 2 ^ (D + k - d)) ds
  = 2 ^ k * sum_list_with (λ d, 2 ^ (D - d)) ds.
Proof.
  induction ds as [|d ds IH]; intros HD; simpl; [lia|].
  rewrite IH by (intros d' Hd'; apply HD; by apply list_elem_of_further).
  assert (d ≤ D) as Hd by (apply HD, list_elem_of_here).
  replace (D + k - d) with (k + (D - d)) by lia.
  rewrite Nat.pow_add_r. lia.
Qed.

(** One bound at which the sum is right is enough. *)
Lemma kraft_intro ds D :
  (∀ d, d ∈ ds → d ≤ D) →
  sum_list_with (λ d, 2 ^ (D - d)) ds = 2 ^ D → kraft ds.
Proof.
  intros HD Hsum D' HD'.
  pose proof (kraft_sum_scale ds D D' HD) as H1.
  pose proof (kraft_sum_scale ds D' D HD') as H2.
  rewrite Hsum, <-Nat.pow_add_r in H1.
  replace (D' + D) with (D + D') in H2 by lia. rewrite H1 in H2.
  rewrite Nat.pow_add_r in H2.
  apply (Nat.mul_cancel_l _ _ (2 ^ D)); [|lia].
  apply Nat.pow_nonzero. lia.
Qed.

Lemma sum_pow_even ds m :
  (∀ d, d ∈ ds → d < m) →
  ∃ k, sum_list_with (λ d, 2 ^ (m - d)) ds = 2 * k.
Proof.
  induction ds as [|d ds IH]; intros Hlt; simpl; [by exists 0|].
  destruct IH as [k Hk].
  { intros d' Hd'. apply Hlt. by apply list_elem_of_further. }
  assert (d < m) as Hd by (apply Hlt, list_elem_of_here).
  exists (2 ^ (m - d - 1) + k). rewrite Hk.
  assert (2 ^ (m - d) = 2 * 2 ^ (m - d - 1)) as ->; [|lia].
  rewrite <-Nat.pow_succ_r'. f_equal. lia.
Qed.

(** With more than one leaf the greatest depth is not zero. *)
Lemma kraft_max_pos ds d1 d2 :
  kraft (d1 :: d2 :: ds) → 0 < max_list (d1 :: d2 :: ds).
Proof.
  intros Hk. destruct (max_list (d1 :: d2 :: ds)) as [|m] eqn:Hmax; [|lia].
  assert (∀ d, d ∈ d1 :: d2 :: ds → d ≤ 0) as Hall.
  { intros d Hd%max_list_elem_of_le. lia. }
  specialize (Hk 0 Hall). simpl in Hk. lia.
Qed.

(** A second leaf sits at the greatest depth. *)
Lemma kraft_second_at_max m d ds :
  kraft (m :: d :: ds) → 0 < m → d < m →
  (∀ d', d' ∈ ds → d' ≤ m) → m ∈ ds.
Proof.
  intros Hk Hm Hd Hall. destruct (decide (m ∈ ds)) as [|Hnin]; [done|].
  exfalso.
  specialize (Hk m). simpl in Hk. rewrite Nat.sub_diag in Hk.
  destruct (sum_pow_even (d :: ds) m) as [k Hk'].
  { intros d' [->|Hd']%elem_of_cons; [done|].
    specialize (Hall d' Hd'). assert (d' ≠ m) by congruence. lia. }
  simpl in Hk'. rewrite Hk' in Hk.
  destruct m as [|m']; [lia|]. rewrite Nat.pow_succ_r' in Hk.
  assert (1 + 2 * k = 2 * 2 ^ m'); [|lia]. apply Hk.
  intros d' [->|[->|Hd']%elem_of_cons]%elem_of_cons; [lia|lia|by apply Hall].
Qed.

Lemma fmap_fst_Permutation_cons (L : list (nat * nat)) a W :
  L.*1 ≡ₚ a :: W → ∃ d L0, L ≡ₚ (a, d) :: L0 ∧ L0.*1 ≡ₚ W.
Proof.
  intros Hperm.
  assert (a ∈ L.*1) as Ha by (rewrite Hperm; apply list_elem_of_here).
  apply list_elem_of_fmap in Ha as ([a' d] & -> & Hin).
  apply elem_of_Permutation in Hin as [L0 HL0].
  exists d, L0. split; [done|].
  rewrite HL0 in Hperm. simpl in Hperm. by apply Permutation_cons_inv in Hperm.
Qed.

(** Moving a weight that is least to the greatest depth, in exchange
    with a weight that is there, does not cost more. *)
Lemma exchange_up a da (R : list (nat * nat)) m :
  da ≤ m → (da < m → m ∈ R.*2) → (∀ z, z ∈ R.*1 → a ≤ z) →
  ∃ R', (m :: R'.*2) ≡ₚ (da :: R.*2) ∧ R'.*1 ≡ₚ R.*1 ∧
        wcost ((a, m) :: R') ≤ wcost ((a, da) :: R).
Proof.
  intros Hda Hm Hmin. destruct (decide (da = m)) as [->|Hne].
  { by exists R. }
  pose proof (Hm ltac:(lia)) as Hin.
  apply list_elem_of_fmap in Hin as ([z m'] & -> & Hin).
  apply elem_of_Permutation in Hin as [R0 HR0]. simpl in *.
  exists ((z, da) :: R0). split_and!.
  - rewrite HR0. simpl. apply perm_swap.
  - rewrite HR0. done.
  - assert (a ≤ z) as Haz.
    { apply Hmin. rewrite HR0. simpl. apply list_elem_of_here. }
    rewrite (wcost_Permutation _ _ HR0), !wcost_cons. nia.
Qed.

(** The exchange step: a tree for [a :: b :: W'], with [a] and [b] the
    two least weights, gives a tree for [(a + b) :: W'] that is cheaper
    by [a + b] at least. *)
Lemma exchange_step (L : list (nat * nat)) a b W' :
  L.*1 ≡ₚ a :: b :: W' → kraft L.*2 →
  (∀ x, x ∈ b :: W' → a ≤ x) → (∀ x, x ∈ W' → b ≤ x) →
  ∃ L', L'.*1 ≡ₚ (a + b) :: W' ∧ kraft L'.*2 ∧ wcost L' + a + b ≤ wcost L.
Proof.
  intros Hw Hk Hmina Hminb.
  destruct (fmap_fst_Permutation_cons L a _ Hw) as (da & La & HL & HLa).
  destruct (fmap_fst_Permutation_cons La b _ HLa) as (db & Lb & HLa' & HLb).
  set (m := max_list L.*2).
  assert (∀ d, d ∈ L.*2 → d ≤ m) as Hmax by (intros d; apply max_list_elem_of_le).
  assert (0 < m) as Hmpos.
  { unfold m. rewrite HL, HLa'. simpl. apply kraft_max_pos.
    apply (kraft_Permutation L.*2); [by rewrite HL, HLa'|done]. }
  (* [a] goes to depth [m] *)
  destruct (exchange_up a da La m) as (La1 & Hd1 & Hw1 & Hc1).
  { apply Hmax. rewrite HL. simpl. apply list_elem_of_here. }
  { intros Hlt.
    assert (m ∈ L.*2) as Hin.
    { apply max_list_elem_of. intros E%fmap_nil_inv. rewrite E in HL.
      by apply Permutation_nil_cons in HL. }
    rewrite HL in Hin. simpl in Hin.
    apply elem_of_cons in Hin as [->|Hin]; [lia|done]. }
  { intros z Hz. apply Hmina. by rewrite <-HLa. }
  (* [b] goes to depth [m] *)
  destruct (fmap_fst_Permutation_cons La1 b W') as (db1 & Lb1 & HLa1 & HLb1).
  { by rewrite Hw1. }
  assert (m :: db1 :: Lb1.*2 ≡ₚ L.*2) as Hdepths.
  { rewrite HL. simpl. rewrite <-Hd1, HLa1. done. }
  destruct (exchange_up b db1 Lb1 m) as (Lb2 & Hd2 & Hw2 & Hc2).
  { apply Hmax. rewrite <-Hdepths. apply list_elem_of_further, list_elem_of_here. }
  { intros Hlt. apply (kraft_second_at_max m db1); [|done..|].
    - by apply (kraft_Permutation L.*2).
    - intros d Hd. apply Hmax. rewrite <-Hdepths. by do 2 apply list_elem_of_further. }
  { intros z Hz. apply Hminb. by rewrite <-HLb1. }
  (* the two become one leaf, one level up *)
  exists ((a + b, m - 1) :: Lb2). split_and!.
  - simpl. by rewrite Hw2, HLb1.
  - assert (kraft (m :: m :: Lb2.*2)) as Hk2.
    { apply (kraft_Permutation L.*2); [|done]. by rewrite Hd2. }
    assert (∀ d, d ∈ Lb2.*2 → d ≤ m) as Hmax2.
    { intros d Hd. apply Hmax. rewrite <-Hdepths, <-Hd2.
      by do 2 apply list_elem_of_further. }
    apply (kraft_intro _ m).
    + rewrite fmap_cons. intros d [->|Hd]%elem_of_cons; [simpl; lia|by apply Hmax2].
    + pose proof (Hk2 m) as Hs.
      rewrite !sum_list_with_cons, Nat.sub_diag in Hs.
      rewrite fmap_cons, sum_list_with_cons. cbn [snd].
      replace (m - (m - 1)) with 1 by lia.
      change (2 ^ 1) with 2. change (2 ^ 0) with 1 in Hs.
      rewrite <-Hs; [lia|].
      intros d [->|[->|Hd]%elem_of_cons]%elem_of_cons; [lia|lia|by apply Hmax2].
  - rewrite (wcost_Permutation _ _ HL).
    rewrite !wcost_cons in Hc1, Hc2. rewrite (wcost_Permutation _ _ HLa1) in Hc1.
    rewrite !wcost_cons in *.
    destruct m as [|m']; [lia|].
    replace (S m' - 1) with m' by lia. nia.
Qed.

Lemma greedy_Permutation W W2 c : greedy W c → W ≡ₚ W2 → greedy W2 c.
Proof.
  intros [w|W0 a b W' c' Hperm Ha Hb Hg] HW.
  - apply Permutation_singleton_l in HW as <-. constructor.
  - apply (greedy_step W2 a b W'); [|done..]. by rewrite <-HW.
Qed.

(** What [greedy] pays is at most the cost of any tree for the weights. *)
Lemma greedy_least W c :
  greedy W c →
  ∀ L : list (nat * nat), L.*1 ≡ₚ W → kraft L.*2 → c ≤ wcost L.
Proof.
  induction 1 as [w|W a b W' c Hperm Ha Hb _ IH]; intros L HL Hk; [lia|].
  destruct (exchange_step L a b W') as (L' & HL' & Hk' & Hcost);
    [by rewrite HL|done..|].
  specialize (IH L' HL' Hk'). lia.
Qed.

End Exchange.

Section Optimal.
Context {A : Type} `{Countable A}.
Implicit Types (n l r u : Node A) (heap : list (Node A)) (text : list A).

Lemma wcost_shift (L : list (nat * nat)) :
  wcost (prod_map id S <$> L) = wcost L + sum_list L.*1.
Proof.
  induction L as [|[w d] L IH]; [done|].
  rewrite !fmap_cons. cbn [prod_map fst snd id].
  rewrite !wcost_cons, !sum_list_with_cons, IH. cbn [id]. lia.
Qed.

Lemma wcost_app (L1 L2 : list (nat * nat)) :
  wcost (L1 ++ L2) = wcost L1 + wcost L2.
Proof. apply sum_list_with_app. Qed.

Lemma leaf_depths_weights n : wf_node n → (leaf_depths n).*1 = (leaves n).*2.
Proof.
  induction 1 as [ch f|l r _ IHl _ IHr]; [done|]. simpl.
  rewrite <-list_fmap_compose, !fmap_app, <-IHl, <-IHr.
  f_equal; apply list_fmap_ext; by intros _ [] _.
Qed.

Lemma leaf_depths_depths l r f :
  (leaf_depths (mkNode None f (Some l) (Some r))).*2
  = S <$> ((leaf_depths l).*2 ++ (leaf_depths r).*2).
Proof.
  simpl. rewrite <-fmap_app, <-!list_fmap_compose.
  apply list_fmap_ext. by intros _ [] _.
Qed.

Lemma sum_pow_shift D (ds : list nat) :
  sum_list_with (λ d, 2 ^ (S D - d)) (S <$> ds)
  = sum_list_with (λ d, 2 ^ (D - d)) ds.
Proof.
  induction ds as [|d ds IH]; [done|].
  rewrite fmap_cons, !sum_list_with_cons, IH. done.
Qed.

Lemma leaf_depths_inhabited n : wf_node n → leaf_depths n ≠ [].
Proof.
  intros Hwf E. apply (f_equal (fmap fst)) in E.
  rewrite (leaf_depths_weights n Hwf) in E. apply fmap_nil_inv in E.
  by apply wf_node_leaves_nonempty in Hwf.
Qed.

(** The depths of the leaves of a tree satisfy Kraft's equality. *)
Lemma leaf_depths_kraft n : wf_node n → kraft (leaf_depths n).*2.
Proof.
  induction 1 as [ch f|l r Hl IHl Hr IHr]; intros D HD.
  - simpl. rewrite Nat.sub_0_r. lia.
  - rewrite leaf_depths_depths in *.
    assert (∃ D', D = S D') as [D' ->].
    { destruct (leaf_depths l) as [|[w d] dl] eqn:El;
        [by apply leaf_depths_inhabited in Hl|].
      specialize (HD (S d)). destruct D; [|by eexists].
      assert (S d ≤ 0); [|lia]. apply HD.
      rewrite fmap_app, fmap_cons. apply list_elem_of_here. }
    rewrite sum_pow_shift, sum_list_with_app, IHl, IHr.
    + rewrite Nat.pow_succ_r'. lia.
    + intros d Hd. assert (S d ≤ S D'); [|lia]. apply HD.
      apply list_elem_of_fmap. exists d. split; [done|].
      apply elem_of_app. by right.
    + intros d Hd. assert (S d ≤ S D'); [|lia]. apply HD.
      apply list_elem_of_fmap. exists d. split; [done|].
      apply elem_of_app. by left.
Qed.

Lemma weighted_path_length_internal l r :
  wf_node l → wf_node r →
  weighted_path_length (mkNode None (frequency l + frequency r) (Some l) (Some r))
  = weighted_path_length l + weighted_path_length r
    + frequency l + frequency r.
Proof.
  intros Hl Hr. unfold weighted_path_length. simpl.
  fold (wcost (prod_map id S <$> (leaf_depths l ++ leaf_depths r))).
  rewrite wcost_shift, wcost_app, fmap_app, sum_list_with_app.
  rewrite !leaf_depths_weights by done.
  rewrite <-!wf_node_frequency by done. unfold wcost. lia.
Qed.

(** What the internal nodes add up to is the weighted path length. *)
Lemma internal_cost_weighted_path_length n :
  wf_node n → internal_cost n = weighted_path_length n.
Proof.
  induction 1 as [ch f|l r Hl IHl Hr IHr].
  - unfold weighted_path_length. simpl. lia.
  - rewrite weighted_path_length_internal by done. simpl. lia.
Qed.

Lemma sum_list_with_split {X} (F G K : X → nat) (L : list X) :
  (∀ x, x ∈ L → F x = G x + K x) →
  sum_list_with F L = sum_list_with G L + sum_list_with K L.
Proof.
  induction L as [|x L IH]; intros Hall; [done|].
  rewrite !sum_list_with_cons, IH, (Hall x).
  - lia.
  - apply list_elem_of_here.
  - intros y Hy. apply Hall. by apply list_elem_of_further.
Qed.

Lemma sum_list_with_snd (L : list (A * nat)) :
  sum_list_with (λ kv, kv.2) L = sum_list L.*2.
Proof. induction L as [|[x f] L IH]; [done|]. simpl. by rewrite IH. Qed.

(** The bits of a text: count times code length over the leaves. *)
Lemma leaves_weighted_sum n : ∀ g : A → nat,
  wf_node n →
  (∀ x c, (x, c) ∈ paths n → g x = length c) →
  sum_list_with (λ kv, kv.2 * g kv.1) (leaves n) = weighted_path_length n.
Proof.
  intros g Hwf. revert g.
  induction Hwf as [ch f|l r Hl IHl Hr IHr]; intros g Hg.
  - unfold weighted_path_length. simpl.
    rewrite (Hg ch []); [done|]. apply list_elem_of_here.
  - rewrite weighted_path_length_internal by done.
    change (leaves (mkNode None (frequency l + frequency r) (Some l) (Some r)))
      with (leaves l ++ leaves r).
    rewrite sum_list_with_app.
    assert (∀ t : Node A, wf_node t →
      (∀ x c, (x, c) ∈ paths t → g x = S (length c)) →
      (∀ g', (∀ x c, (x, c) ∈ paths t → g' x = length c) →
         sum_list_with (λ kv, kv.2 * g' kv.1) (leaves t)
         = weighted_path_length t) →
      sum_list_with (λ kv, kv.2 * g kv.1) (leaves t)
      = weighted_path_length t + frequency t) as Hside.
    { intros t Ht Hgt IHt.
      rewrite (sum_list_with_split _ (λ kv, kv.2 * pred (g kv.1)) (λ kv, kv.2)).
      - rewrite (IHt (λ x, pred (g x))), sum_list_with_snd,
          (wf_node_frequency t Ht); [done|].
        intros x c Hin. by rewrite (Hgt x c Hin).
      - intros [x f] Hin. simpl.
        assert (x ∈ (paths t).*1) as Hx.
        { rewrite (wf_node_paths_keys t Ht). apply list_elem_of_fmap.
          by exists (x, f). }
        apply list_elem_of_fmap in Hx as ([x' c] & -> & Hin').
        cbn [fst]. rewrite (Hgt _ c Hin'). simpl. lia. }
    rewrite (Hside l Hl), (Hside r Hr); [lia| |done| |done].
    + intros x c Hin. rewrite (Hg x (true :: c)); [done|].
      simpl. apply elem_of_app. right. apply list_elem_of_fmap. by exists (x, c).
    + intros x c Hin. rewrite (Hg x (false :: c)); [done|].
      simpl. apply elem_of_app. left. apply list_elem_of_fmap. by exists (x, c).
Qed.

(** The loop of [build_tree] pays what [greedy] pays for the
    frequencies of the nodes in the heap. *)
Lemma build_loop_cost fuel : ∀ heap r,
  build_loop fuel heap = inr [r] → heap_from 0 heap →
  ∃ c, greedy (frequency <$> heap) c ∧
       internal_cost r = c + sum_list_with internal_cost heap.
Proof.
  induction fuel as [|fuel IH]; intros heap r Hloop Hheap.
  - simpl in Hloop. destruct (decide (1 < length heap)); [done|].
    injection Hloop as ->. exists 0. split; [constructor|]. simpl. lia.
  - simpl in Hloop. destruct (decide (1 < length heap)) as [Hlen|Hlen]; last first.
    { injection Hloop as ->. exists 0. split; [constructor|]. simpl. lia. }
    destruct (heappop heap) as [e|[l heap1]] eqn:Hpop1; [done|].
    rewrite bind_inr in Hloop. simpl in Hloop.
    destruct (heappop heap1) as [e|[r0 heap2]] eqn:Hpop2; [done|].
    rewrite bind_inr in Hloop. simpl in Hloop.
    destruct (heappush heap2 _) as [e|heap3] eqn:Hpush; [done|].
    rewrite bind_inr in Hloop.
    assert (heap ≠ []) as Hne by (intros ->; simpl in Hlen; lia).
    destruct (heappop_spec heap Hne) as (? & ? & Hpop1' & Hperm1).
    rewrite Hpop1 in Hpop1'. injection Hpop1' as <- <-.
    assert (heap1 ≠ []) as Hne1.
    { intros ->. apply Permutation_length in Hperm1. simpl in Hperm1. lia. }
    destruct (heappop_spec heap1 Hne1) as (? & ? & Hpop2' & Hperm2).
    rewrite Hpop2 in Hpop2'. injection Hpop2' as <- <-.
    destruct (heappush_spec heap2
      (mkNode None (frequency l + frequency r0) (Some l) (Some r0)))
      as (? & Hpush' & Hperm3).
    rewrite Hpush in Hpush'. injection Hpush' as <-.
    destruct (heappop_order _ _ _ Hpop1 Hheap) as (Hheap1 & Hmin1).
    destruct (heappop_order _ _ _ Hpop2 Hheap1) as (Hheap2 & Hmin2).
    destruct (IH _ _ Hloop) as (c & Hgreedy & Hcost).
    { by apply (heappush_order heap2 _ heap3 Hpush). }
    exists (frequency l + frequency r0 + c). split.
    + apply (greedy_step _ (frequency l) (frequency r0) (frequency <$> heap2)).
      * by rewrite Hperm1, Hperm2.
      * intros x Hx.
        change (frequency r0 :: (frequency <$> heap2))
          with (frequency <$> (r0 :: heap2)) in Hx.
        apply list_elem_of_fmap in Hx as (y & -> & Hy).
        apply Hmin1. by rewrite Hperm2.
      * intros x (y & -> & Hy)%list_elem_of_fmap. by apply Hmin2.
      * apply (greedy_Permutation _ _ _ Hgreedy). by rewrite Hperm3.
    + rewrite Hcost, Hperm3, Hperm1, Hperm2. simpl. lia.
Qed.

(** The steps [build_tree] goes through on a non-empty text. *)
Lemma build_tree_run text :
  text ≠ [] →
  ∃ heap r,
    heapify (initial_heap (count_frequencies text)) = inr heap ∧
    heap ≡ₚ initial_heap (count_frequencies text) ∧
    build_loop (length heap) heap = inr [r] ∧
    build_tree text = inr (Some r).
Proof.
  intros Hne.
  destruct (heapify_spec (initial_heap (count_frequencies text)))
    as (heap & Hheapify & Hperm).
  destruct (build_loop_spec (length heap) heap (count_frequencies text))
    as (r & Hloop & _).
  { rewrite Hperm. apply initial_heap_wf. }
  { by rewrite Hperm, initial_heap_leaves. }
  { intros ->. apply Permutation_nil_l in Hperm. symmetry in Hperm.
    apply fmap_nil_inv in Hperm.
    by apply (proj1 (count_frequencies_nil text)) in Hperm. }
  { lia. }
  exists heap, r. split_and!; [done..|].
  unfold build_tree.
  change (_ <$> count_frequencies text)
    with (initial_heap (count_frequencies text)).
  by rewrite Hheapify, bind_inr, Hloop.
Qed.

(** X16. The tree of a non-empty text is optimal.  The number of bits
    [encode] produces for the text is the weighted path length of the
    tree, and no tree with the same leaves (the same symbols with the
    same counts, every internal node with two children) has a smaller
    weighted path length. *)
Theorem huffman_optimal text :
  text ≠ [] →
  ∃ T r bits,
    HuffmanTree_init text = inr T ∧ root T = Some r ∧
    encode T text = inr bits ∧
    length bits = weighted_path_length r ∧
    ∀ u, wf_node u → leaves u ≡ₚ count_frequencies text →
         length bits ≤ weighted_path_length u.
Proof.
  intros Hne.
  destruct (HuffmanTree_init_spec text Hne) as (r & HT & Hwf & Hleaves & Hnd).
  destruct (encode_total (mkHuffmanTree (list_to_map (paths r)) (Some r)) text)
    as [bits Henc].
  { intros x Hx. by apply (proj2 (codes_domain text _ x HT)). }
  assert (length bits = weighted_path_length r) as Hbits.
  { rewrite (encode_length _ _ _ Henc). cbn [codes].
    rewrite (sum_by_frequency
      (λ x, length (default [] (list_to_map (paths r) !! x))) text).
    rewrite <-Hleaves.
    apply (leaves_weighted_sum r
      (λ x, length (default [] (list_to_map (paths r) !! x)))); [done|].
    intros x c Hin. by rewrite (elem_of_list_to_map_1 _ _ _ Hnd Hin). }
  eexists _, r, bits. split_and!; [exact HT|done|done|done|].
  - rewrite Hbits.
    destruct (build_tree_run text Hne) as (heap & r' & Hheapify & Hperm & Hloop & Hbuild).
    assert (r' = r) as ->.
    { unfold HuffmanTree_init in HT. destruct text as [|x text]; [done|].
      rewrite Hbuild, bind_inr in HT. by injection HT as _ ->. }
    destruct (build_loop_cost _ _ _ Hloop) as (c & Hgreedy & Hcost).
    { by apply (heapify_order _ _ Hheapify). }
    assert (sum_list_with internal_cost heap = 0) as Hzero.
    { rewrite Hperm. apply sum_list_with_zero.
      intros t ([ch f] & -> & _)%list_elem_of_fmap. done. }
    assert (frequency <$> heap ≡ₚ (count_frequencies text).*2) as Hweights.
    { rewrite Hperm. unfold initial_heap. rewrite <-list_fmap_compose.
      erewrite list_fmap_ext; [done|]. by intros _ [] _. }
    rewrite <-(internal_cost_weighted_path_length r Hwf), Hcost, Hzero.
    intros u Hu Hleaves_u.
    assert (c ≤ wcost (leaf_depths u)); [|unfold weighted_path_length, wcost in *; lia].
    apply (greedy_least _ _ Hgreedy).
    + by rewrite (leaf_depths_weights u Hu), Hleaves_u, Hweights.
    + by apply leaf_depths_kraft.
Qed.

End Optimal.

(** * Instances on concrete buffers *)

(** The scenario of the specification: "AAABBC". *)
Example AAABBC_round_trip :
  ∃ ret file,
    FileCompression.compress_file [65; 65; 65; 66; 66; 67]%N = inr (ret, file) ∧
    codes ret.1.1 = {[ 65%N := [false]; 67%N := [true; false]; 66%N := [true; true] ]} ∧
    ret.2 = [false; false; false; true; true; true; true; true; false] ∧
    file = [7; 31; 0]%N ∧
    FileCompression.decompress_file file ret.1.1 = inr [65; 65; 65; 66; 66; 67]%N.
Proof. eexists _, _. split; [vm_compute; reflexivity|]. by vm_compute. Qed.

Lemma build_tree_internal_nodes_witness :
  [65; 65; 66; 67]%N ≠ [] ∧
  ∃ r, build_tree [65; 65; 66; 67]%N = inr (Some r) ∧
       (∀ n, n ∈ subnodes r → internal_node_ok n) ∧
       frequency r = length [65; 65; 66; 67]%N.
Proof. split; [done|]. apply (build_tree_internal_nodes [65; 65; 66; 67]%N). done. Defined.

Lemma code_table_prefix_free_witness :
  [1; 2; 3; 1]%N ≠ [] ∧
  ∃ T r, HuffmanTree_init [1; 2; 3; 1]%N = inr T ∧ root T = Some r ∧
    codes T = generate_codes (Some r) [] ∅ ∧
    NoDup (paths r).*1 ∧
    size (codes T) = length (paths r) ∧
    (∀ x c, codes T !! x = Some c ↔ (x, c) ∈ paths r) ∧
    (∀ x y cx cy, x ≠ y →
       codes T !! x = Some cx → codes T !! y = Some cy →
       ¬ cx `prefix_of` cy).
Proof. split; [done|]. apply (code_table_prefix_free [1; 2; 3; 1]%N). done. Defined.

Lemma encode_never_misses_witness :
  [7; 7; 7]%N ≠ [] ∧
  ∃ T, HuffmanTree_init [7; 7; 7]%N = inr T ∧
       (∀ x, x ∈ [7; 7; 7]%N → is_Some (codes T !! x)) ∧
       ∃ bits, encode T [7; 7; 7]%N = inr bits.
Proof. split; [done|]. apply (encode_never_misses [7; 7; 7]%N). done. Defined.

Lemma decode_huffman_total_witness :
  two_distinct [1; 2; 3]%N ∧
  ∃ T, HuffmanTree_init [1; 2; 3]%N = inr T ∧
       ∀ bits, ∃ out, decode_huffman bits T = inr out ∧
                      length out ≤ length bits.
Proof.
  assert (two_distinct [1; 2; 3]%N) as Htwo.
  { exists 1%N, 2%N. split_and!; [repeat constructor..|done]. }
  split; [exact Htwo|]. apply (decode_huffman_total [1; 2; 3]%N Htwo).
Defined.

(** With the codes 1 -> 0, 3 -> 10, 2 -> 11 the bits 0 1 are the code of
    1 and the first half of a code: 1 is returned.  With the single-leaf
    tree of 7 7, one bit is enough to raise. *)
Lemma decode_huffman_incomplete_stream_witness :
  (∃ T, HuffmanTree_init [1; 2; 3]%N = inr T ∧
        ends_mid_code T [1%N] [false; true] [true] ∧
        decode_huffman [false; true] T = inr [1%N]) ∧
  (∃ T, HuffmanTree_init [7; 7]%N = inr T ∧
        (∀ x y, x ∈ [7; 7]%N → y ∈ [7; 7]%N → x = y) ∧
        decode_huffman [true] T = inl AttributeError).
Proof.
  split.
  - eexists. split; [vm_compute; reflexivity|].
    assert (ends_mid_code (A:=N)
              (mkHuffmanTree
                 {[ 1%N := [false]; 3%N := [true; false]; 2%N := [true; true] ]}
                 (Some (mkNode None 3 (Some (mkNode (Some 1%N) 1 None None))
                    (Some (mkNode None 2 (Some (mkNode (Some 3%N) 1 None None))
                                         (Some (mkNode (Some 2%N) 1 None None)))))))
              [1%N] [false; true] [true]) as Hmid.
    { exists [false], 3%N, [false]. by vm_compute. }
    split; [exact Hmid|].
    refine (proj1 (decode_huffman_incomplete_stream [1; 2; 3]%N _ _) _ _ _ Hmid).
    vm_compute; reflexivity.
  - eexists. split; [vm_compute; reflexivity|].
    assert (∀ x y : N, x ∈ [7; 7]%N → y ∈ [7; 7]%N → x = y) as Hsame.
    { intros x y Hx Hy.
      change [7%N; 7%N] with (replicate 2 7%N) in Hx, Hy.
      apply elem_of_replicate_inv in Hx, Hy. congruence. }
    split; [exact Hsame|].
    refine (proj2 (decode_huffman_incomplete_stream [7; 7]%N _ _) Hsame _ _).
    vm_compute; reflexivity.
Defined.

Lemma HuffmanTree_deterministic_witness :
  count_frequencies [1; 2; 1]%N = count_frequencies [1; 1; 2]%N ∧
  HuffmanTree_init [1; 2; 1]%N = HuffmanTree_init [1; 1; 2]%N ∧
  first_extracted [1; 2; 1]%N = first_extracted [1; 1; 2]%N.
Proof.
  split; [reflexivity|].
  apply (HuffmanTree_deterministic [1; 2; 1]%N [1; 1; 2]%N). reflexivity.
Defined.

(** ** Instances of the further properties *)

Lemma FileCompression_round_trip_witness :
  two_distinct [104; 105; 104]%N ∧
  ∃ ret file,
    FileCompression.compress_file [104; 105; 104]%N = inr (ret, file) ∧
    FileCompression.decompress_file file ret.1.1 = inr [104; 105; 104]%N.
Proof.
  assert (two_distinct [104; 105; 104]%N) as Htwo.
  { exists 104%N, 105%N. split_and!; [repeat constructor..|done]. }
  split; [exact Htwo|]. apply (FileCompression_round_trip _ Htwo).
Defined.

Lemma MixAndEntropy_round_trip_witness :
  two_distinct [0; 255; 0; 0]%N ∧
  ∃ T file,
    MixAndEntropy.compress_file [0; 255; 0; 0]%N
      = inr (Some T, Some file, length [0; 255; 0; 0]%N) ∧
    MixAndEntropy.decompress_file file T = inr (Some [0; 255; 0; 0]%N).
Proof.
  assert (two_distinct [0; 255; 0; 0]%N) as Htwo.
  { exists 0%N, 255%N. split_and!; [repeat constructor..|done]. }
  split; [exact Htwo|]. apply (MixAndEntropy_round_trip _ Htwo).
Defined.

Lemma encode_KeyError_witness :
  ∃ T, HuffmanTree_init [1; 2]%N = inr T ∧
    (∃ x, x ∈ [1; 3]%N ∧ x ∉ [1; 2]%N) ∧
    encode T [1; 3]%N = inl KeyError.
Proof.
  eexists. split; [vm_compute; reflexivity|].
  assert (∃ x, x ∈ [1; 3]%N ∧ x ∉ [1; 2]%N) as Hmissing.
  { exists 3%N. split; [repeat constructor|].
    intros Hin. apply elem_of_cons in Hin as [?|Hin]; [done|].
    apply elem_of_cons in Hin as [?|Hin]; [done|]. by apply elem_of_nil in Hin. }
  split; [exact Hmissing|].
  refine (proj2 (encode_KeyError [1; 2]%N _ [1; 3]%N _) Hmissing).
  vm_compute; reflexivity.
Defined.

Lemma encode_decode_alphabet_witness :
  two_distinct [1; 2; 3]%N ∧
  ∃ T, HuffmanTree_init [1; 2; 3]%N = inr T ∧
    (∀ text', (∀ x, x ∈ text' → x ∈ [1; 2; 3]%N) →
       ∃ bits, encode T text' = inr bits ∧ decode_huffman bits T = inr text') ∧
    (∀ text1 text2 bits,
       encode T text1 = inr bits → encode T text2 = inr bits → text1 = text2).
Proof.
  assert (two_distinct [1; 2; 3]%N) as Htwo.
  { exists 1%N, 2%N. split_and!; [repeat constructor..|done]. }
  split; [exact Htwo|]. apply (encode_decode_alphabet _ Htwo).
Defined.

Lemma code_length_bounds_witness :
  two_distinct [1; 2; 3; 3]%N ∧
  ∃ T, HuffmanTree_init [1; 2; 3; 3]%N = inr T ∧
    ∀ x c, codes T !! x = Some c →
      1 ≤ length c ≤ length (count_frequencies [1; 2; 3; 3]%N) - 1.
Proof.
  assert (two_distinct [1; 2; 3; 3]%N) as Htwo.
  { exists 1%N, 2%N. split_and!; [repeat constructor..|done]. }
  split; [exact Htwo|]. apply (code_length_bounds _ Htwo).
Defined.

Lemma code_table_complete_witness :
  [1; 2; 3; 3]%N ≠ [] ∧
  ∃ T, HuffmanTree_init [1; 2; 3; 3]%N = inr T ∧
    ∀ D, (∀ x c, codes T !! x = Some c → length c ≤ D) →
      sum_list_with (λ kv, 2 ^ (D - length kv.2)) (map_to_list (codes T)) = 2 ^ D.
Proof. split; [done|]. apply (code_table_complete [1; 2; 3; 3]%N). done. Defined.

Lemma MixAndEntropy_compress_file_returns_witness :
  [9; 9]%N ≠ [] ∧
  ∃ T bits out,
    let padding := 8 - length bits `mod` 8 in
    MixAndEntropy.compress_file [9; 9]%N
      = inr (Some T, Some (padding, bits ++ replicate padding false),
             length [9; 9]%N) ∧
    encode T [9; 9]%N = inr bits ∧
    bits ++ replicate padding false ≠ [] ∧
    MixAndEntropy.decompress_file
      (padding, bits ++ replicate padding false) T = inr (Some out).
Proof.
  split; [done|]. apply (MixAndEntropy_compress_file_returns [9; 9]%N). done.
Defined.

Lemma build_tree_ordered_witness :
  [5; 6; 7; 5; 6; 5]%N ≠ [] ∧
  ∃ r, build_tree [5; 6; 7; 5; 6; 5]%N = inr (Some r) ∧
       ∀ n, n ∈ subnodes r → ordered_children n.
Proof. split; [done|]. apply (build_tree_ordered [5; 6; 7; 5; 6; 5]%N). done. Defined.

Lemma first_extracted_least_witness :
  [5; 6; 7; 5; 6; 5]%N ≠ [] ∧
  ∃ ch c, first_extracted [5; 6; 7; 5; 6; 5]%N = inr (Some ch) ∧
          (ch, c) ∈ count_frequencies [5; 6; 7; 5; 6; 5]%N ∧
          ∀ ch' c', (ch', c') ∈ count_frequencies [5; 6; 7; 5; 6; 5]%N → c ≤ c'.
Proof. split; [done|]. apply (first_extracted_least [5; 6; 7; 5; 6; 5]%N). done. Defined.

Lemma huffman_optimal_witness :
  [65; 65; 65; 66; 66; 67]%N ≠ [] ∧
  ∃ T r bits,
    HuffmanTree_init [65; 65; 65; 66; 66; 67]%N = inr T ∧ root T = Some r ∧
    encode T [65; 65; 65; 66; 66; 67]%N = inr bits ∧
    length bits = weighted_path_length r ∧
    ∀ u, wf_node u →
         leaves u ≡ₚ count_frequencies [65; 65; 65; 66; 66; 67]%N →
         length bits ≤ weighted_path_length u.
Proof.
  split; [done|]. apply (huffman_optimal [65; 65; 65; 66; 66; 67]%N). done.
Defined.

(** ** Where the code departs from the specification *)

(** C6 as stated fails.  For the tree of 1 2 3 (codes 1 -> 0, 3 -> 10,
    2 -> 11) the single bit 1 stops inside a code, and the decoder
    returns the empty list instead of raising. *)
Lemma decode_mid_code_no_error :
  ∃ T, HuffmanTree_init [1; 2; 3]%N = inr T ∧
       decode_huffman [true] T = inr [] ∧
       ¬ rejects_incomplete_stream T.
Proof.
  eexists. split; [vm_compute; reflexivity|]. split; [reflexivity|].
  intros Hclaim. destruct (Hclaim [] [true] [true]) as [e He]; [|done].
  exists [], 3%N, [false]. by vm_compute.
Qed.

(** C7 as stated fails on both scripts.  FileCompression.py writes a
    packed byte for the empty text; MixAndEntropy.py writes nothing. *)
Lemma empty_input_no_empty_artifact :
  ¬ FileCompression.empty_artifact_claim (A:=N) ∧
  ¬ MixAndEntropy.empty_artifact_claim (A:=N).
Proof.
  split.
  - intros (ret & file & Hc & Hfile & _).
    vm_compute in Hc. injection Hc as <- <-. done.
  - intros (T & file & n & Hc & _). done.
Qed.

(** C4 as stated fails.  With the three symbols 1 2 3 once each,
    [heapify] moves the last leaf to the front: the first node taken out
    is the leaf of 3, not the leaf of 1 that was inserted first. *)
Lemma ties_not_by_insertion_order :
  first_extracted [1; 2; 3]%N = inr (Some 3%N) ∧
  fst <$> earliest_minimum (count_frequencies [1; 2; 3]%N) = Some 1%N ∧
  ¬ ties_by_insertion_order [1; 2; 3]%N.
Proof. split_and!; [reflexivity|reflexivity|]. intros Hclaim. vm_compute in Hclaim. done. Qed.
